(** * pkginfobot: the Telegram bot client of [pkginfobot.py]

    A shallow embedding of [TelegramBotClient] (its [bot_api], [parse_cmd],
    [serve] and [__getattr__] methods) together with the properties of the
    polling loop, the retry policy and the command parser; and of
    [mdescape] and of the callback [message_handler], whose command
    handlers are taken as parameters.

    Python values are embedded as follows.
    - A [str] is a list of Unicode code points ([N]).
    - A decoded JSON document is a [json] tree; objects keep their key
      order, as [dict.items()] iterates in insertion order.  JSON numbers
      are restricted to integers.
    - Exceptions are values of [exn]; code that can raise returns in a
      sum, and effectful code runs in the monad [M], a state monad whose
      state survives a raise (Python does not undo mutations on unwind).
    - The outside world is an oracle [net] giving the outcome of the n-th
      HTTP attempt, and a chronological [log] of the observable events
      (posts, sleeps, logging calls, callback invocations). *)

From Stdlib Require Import List NArith ZArith QArith Bool String Ascii Lia Sorted.
Import ListNotations.

(* ================================================================== *)
(** ** Strings *)
(* ================================================================== *)

Definition char := N.
Definition str := list char.

Definition char_eqb (a b : char) : bool := N.eqb a b.

Fixpoint str_eqb (a b : str) : bool :=
  match a, b with
  | [], [] => true
  | x :: a', y :: b' => char_eqb x y && str_eqb a' b'
  | _, _ => false
  end.

(** A Python string literal made of ASCII characters. *)
Definition lit (s : string) : str :=
  List.map N_of_ascii (list_ascii_of_string s).

Definition SPACE : char := 32%N.   (* ' '    *)
Definition NBSP : char := 160%N.   (* '\xa0' *)
Definition SLASH : char := 47%N.   (* '/'    *)
Definition AT : char := 64%N.      (* '@'    *)

(** [str.isspace] on one code point: the characters [str.strip()] removes
    when called without argument. *)
Definition isspace (c : char) : bool :=
  ((9 <=? c) && (c <=? 13) ||
   (28 <=? c) && (c <=? 32) ||
   (c =? 133) || (c =? 160) || (c =? 5760) ||
   (8192 <=? c) && (c <=? 8202) ||
   (c =? 8232) || (c =? 8233) || (c =? 8239) || (c =? 8287) ||
   (c =? 12288))%N.

Fixpoint lstrip (s : str) : str :=
  match s with
  | c :: s' => if isspace c then lstrip s' else s
  | [] => []
  end.

Definition rstrip (s : str) : str := rev (lstrip (rev s)).

(** [s.strip()] *)
Definition strip (s : str) : str := rstrip (lstrip s).

(** [s.replace(old, new)] for one-character [old] and [new]. *)
Definition replace (old new : char) (s : str) : str :=
  List.map (fun c => if char_eqb c old then new else c) s.

(** [break sep s]: the text before the first [sep] and, when there is
    one, the text after it. *)
Fixpoint break (sep : char) (s : str) : str * option str :=
  match s with
  | [] => ([], None)
  | c :: s' =>
      if char_eqb c sep then ([], Some s')
      else let (h, r) := break sep s' in (c :: h, r)
  end.

(** [s.split(sep, 1)] for a one-character [sep]. *)
Definition split1 (sep : char) (s : str) : list str :=
  match break sep s with
  | (h, Some r) => [h; r]
  | (h, None) => [h]
  end.

(** [s.rsplit(sep, 1)] for a one-character [sep]. *)
Definition rsplit1 (sep : char) (s : str) : list str :=
  match break sep (rev s) with
  | (t, Some h) => [rev h; rev t]
  | (t, None) => [rev t]
  end.

(* ================================================================== *)
(** ** Exceptions and fallible pure code *)
(* ================================================================== *)

#[local] Set Warnings "-register-all".

Inductive json : Type :=
| JNull
| JBool (b : bool)
| JInt (z : Z)
| JStr (s : str)
| JList (l : list json)
| JDict (d : list (str * json)).

Inductive exn : Type :=
| BotAPIFailed (ret description error_code parameters : json)
| KeyError
| IndexError
| TypeError
| AttributeError
| ValueError
| UnboundLocalError
| OtherException (name : str)        (* any other subclass of Exception *)
| BaseExceptionOnly (name : str).    (* KeyboardInterrupt, SystemExit *)

(** [isinstance(ex, Exception)] *)
Definition is_Exception (e : exn) : bool :=
  match e with BaseExceptionOnly _ => false | _ => true end.

(** [isinstance(ex, BotAPIFailed)] *)
Definition is_BotAPIFailed (e : exn) : bool :=
  match e with BotAPIFailed _ _ _ _ => true | _ => false end.

Definition result (A : Type) : Type := (exn + A)%type.

Definition last_opt {A} (l : list A) : option A :=
  match rev l with x :: _ => Some x | [] => None end.

(** [l[i]] for a non-negative literal index, [l[-1]]. *)
Definition index {A} (l : list A) (i : nat) : result A :=
  match nth_error l i with Some x => inr x | None => inl IndexError end.

Definition index_last {A} (l : list A) : result A :=
  match last_opt l with Some x => inr x | None => inl IndexError end.

(** The error monad of pure code that can raise. *)
Definition rbind {A B} (c : result A) (k : A -> result B) : result B :=
  match c with inl e => inl e | inr x => k x end.

Declare Scope res_scope.
Delimit Scope res_scope with res.
Notation "x <- c ;; k" := (rbind c (fun x => k))
  (at level 61, c at next level, right associativity) : res_scope.

(* ================================================================== *)
(** ** The client object *)
(* ================================================================== *)

(** The attributes [__init__] sets and the client reads ([config] is
    stored and never read by the client). [offset] is [None] or an
    integer, hence a [json]. *)
Record client : Type := mkClient {
  token : str;
  username : str;
  offset : json;
  run : bool
}.

(* ================================================================== *)
(** ** [parse_cmd] *)
(* ================================================================== *)

(** The list [t] of [parse_cmd]. *)
Definition cmd_fields (text : str) : list str :=
  split1 SPACE (replace NBSP SPACE (strip text)).

(** [t[0]], the head token (empty when [t] is). *)
Definition head_token (text : str) : str := hd [] (cmd_fields text).

(** [t[1] if len(t) > 1 else ''] *)
Definition remainder (text : str) : str :=
  match cmd_fields text with _ :: r :: _ => r | _ => [] end.

Definition is_empty {A} (l : list A) : bool :=
  match l with [] => true | _ => false end.

Definition parse_cmd (self : client) (text : str)
  : result (option str * option str) :=
  (let t := cmd_fields text in
   if is_empty t then inr (None, None) else
   t0 <- index t 0 ;;
   let cmd := rsplit1 AT t0 in
   cmd0 <- index cmd 0 ;;
   bad <- (if (List.length cmd0 <? 2)%nat then inr true
           else c <- index cmd0 0 ;; inr (negb (char_eqb c SLASH))) ;;
   if bad then inr (None, None) else
   other <- (if (1 <? List.length cmd)%nat
             then h <- index_last cmd ;; inr (negb (str_eqb h (username self)))
             else inr false) ;;
   if other then inr (None, None) else
   expr <- (if (1 <? List.length t)%nat then index t 1 else inr []) ;;
   inr (Some (tl cmd0), Some expr))%res.

(** The texts [parse_cmd] does not take for a command of this client. *)
Definition no_marker (text : str) : Prop :=
  forall r, strip text <> SLASH :: r.

Definition short_verb (text : str) : Prop :=
  head_token text = [SLASH] \/
  exists h, ~ In AT h /\ head_token text = SLASH :: AT :: h.

Definition foreign_suffix (me : client) (text : str) : Prop :=
  exists p h, ~ In AT h /\ head_token text = p ++ AT :: h /\ h <> username me.

Definition not_a_command (me : client) (text : str) : Prop :=
  text = [] \/ no_marker text \/ short_verb text \/ foreign_suffix me text.

Definition bot : client := mkClient (lit "123:abc") (lit "bot") JNull true.

(* ================================================================== *)
(** ** Operations on decoded JSON values *)
(* ================================================================== *)

(** [bool(o)] *)
Definition truthy (o : json) : bool :=
  match o with
  | JNull => false
  | JBool b => b
  | JInt z => negb (z =? 0)%Z
  | JStr s => negb (is_empty s)
  | JList l => negb (is_empty l)
  | JDict d => negb (is_empty d)
  end.

Fixpoint lookup {V} (k : str) (d : list (str * V)) : option V :=
  match d with
  | [] => None
  | (k', v) :: d' => if str_eqb k' k then Some v else lookup k d'
  end.

(** [o[k]] for a string [k] *)
Definition getitem (o : json) (k : str) : result json :=
  match o with
  | JDict d => match lookup k d with Some v => inr v | None => inl KeyError end
  | _ => inl TypeError
  end.

(** [o.get(k)] *)
Definition get (o : json) (k : str) : result json :=
  match o with
  | JDict d => match lookup k d with Some v => inr v | None => inr JNull end
  | _ => inl AttributeError
  end.

Fixpoint startswith (p s : str) : bool :=
  match p, s with
  | [], _ => true
  | x :: p', y :: s' => char_eqb x y && startswith p' s'
  | _ :: _, [] => false
  end.

Fixpoint substring (p s : str) : bool :=
  startswith p s || match s with [] => false | _ :: s' => substring p s' end.

(** [k in o] for a string [k] *)
Definition contains (k : str) (o : json) : result bool :=
  match o with
  | JDict d => inr (match lookup k d with Some _ => true | None => false end)
  | JList l =>
      inr (existsb (fun x => match x with JStr s => str_eqb s k | _ => false end) l)
  | JStr s => inr (substring k s)
  | _ => inl TypeError
  end.

(** [o[-1]] *)
Definition getitem_last (o : json) : result json :=
  match o with
  | JList l => index_last l
  | JStr s => (c <- index_last s ;; inr (JStr [c]))%res
  | JDict _ => inl KeyError
  | _ => inl TypeError
  end.

(** [o + 1] *)
Definition add1 (o : json) : result json :=
  match o with
  | JInt z => inr (JInt (z + 1))
  | JBool b => inr (JInt ((if b then 1 else 0) + 1))
  | _ => inl TypeError
  end.

(** The elements [for x in o] visits. *)
Definition iter (o : json) : result (list json) :=
  match o with
  | JList l => inr l
  | JStr s => inr (List.map (fun c => JStr [c]) s)
  | JDict d => inr (List.map (fun kv => JStr (fst kv)) d)
  | _ => inl TypeError
  end.

(** [o.items()] *)
Definition items (o : json) : result (list (str * json)) :=
  match o with
  | JDict d => inr d
  | _ => inl AttributeError
  end.

(** The number of seconds [time.sleep(o)] is asked to wait. *)
Definition seconds (o : json) : result Q :=
  match o with
  | JInt z => inr (inject_Z z)
  | JBool b => inr (inject_Z (if b then 1 else 0))
  | _ => inl TypeError
  end.

(* ================================================================== *)
(** ** The world and the monad of effectful code *)
(* ================================================================== *)

(** What one [HSession.post] followed by [json.loads] does: raise, or
    give the decoded body. *)
Inductive attempt : Type :=
| Raises (e : exn)
| Decoded (ret : json).

Inductive event : Type :=
| EPost (token method : str) (data : list (str * json)) (timeout : Z)
| ESleep (d : Q)
| ELogException (msg : str) (e : exn)
| ECall (kind : str) (payload : json).

Record state : Type := mkState {
  self : client;
  net : nat -> attempt;    (* outcome of the n-th attempt *)
  calls : nat;             (* attempts made so far *)
  log : list event         (* oldest first *)
}.

Definition M (A : Type) : Type := state -> result A * state.

Definition ret {A} (x : A) : M A := fun s => (inr x, s).
Definition raise {A} (e : exn) : M A := fun s => (inl e, s).
Definition bind {A B} (c : M A) (k : A -> M B) : M B :=
  fun s => match c s with
           | (inl e, s') => (inl e, s')
           | (inr x, s') => k x s'
           end.
Definition lift {A} (r : result A) : M A := fun s => (r, s).

(** [try: c] with the handlers applied to the returned sum. *)
Definition try {A} (c : M A) : M (result A) :=
  fun s => let (r, s') := c s in (inr r, s').

Declare Scope M_scope.
Delimit Scope M_scope with M.
Notation "x <- c ;; k" := (bind c (fun x => k))
  (at level 61, c at next level, right associativity) : M_scope.
Notation "c ;;; k" := (bind c (fun _ => k))
  (at level 61, right associativity) : M_scope.

Definition emit (e : event) : M unit :=
  fun s => (inr tt, mkState (self s) (net s) (calls s) (log s ++ [e])).

Definition get_self : M client := fun s => (inr (self s), s).

(** [self.offset = v] *)
Definition set_offset (v : json) : M unit :=
  fun s => (inr tt,
            mkState (mkClient (token (self s)) (username (self s)) v (run (self s)))
                    (net s) (calls s) (log s)).

(** [HSession.post(url, data=params, timeout=45)] and the decoding of the
    body: the next outcome of the oracle. *)
Definition post (method : str) (params : list (str * json)) : M json :=
  fun s =>
    let s' := mkState (self s) (net s) (S (calls s))
                      (log s ++ [EPost (token (self s)) method params 45]) in
    match net s (calls s) with
    | Raises e => (inl e, s')
    | Decoded r => (inr r, s')
    end.

(** [time.sleep(d)] *)
Definition sleep (d : Q) : M unit :=
  if Qle_bool 0 d then emit (ESleep d) else raise ValueError.

(** [logging.exception(msg)] inside a handler of [e] *)
Definition logging_exception (msg : str) (e : exn) : M unit :=
  emit (ELogException msg e).

(* ================================================================== *)
(** ** [bot_api] *)
(* ================================================================== *)

(** [BotAPIFailed(ret)] *)
Definition new_BotAPIFailed (r : json) : result exn :=
  (description <- getitem r (lit "description") ;;
   error_code <- getitem r (lit "error_code") ;;
   parameters <- get r (lit "parameters") ;;
   inr (BotAPIFailed r description error_code parameters))%res.

(** The [for att in ...] loop of [bot_api] over the attempt indices still
    to run; its value is [ret]. *)
Fixpoint bot_api_attempts (atts : list Z) (method : str)
         (params : list (str * json)) : M json :=
  (match atts with
   | [] => raise UnboundLocalError      (* no break: [ret] was never bound *)
   | att :: atts' =>
       r <- try (post method params) ;;
       match r with
       | inr body => ret body                                  (* break *)
       | inl ex =>
           if is_Exception ex then
             if (att <? 1)%Z
             then sleep (inject_Z ((att + 1) * 2)) ;;;
                  bot_api_attempts atts' method params
             else raise ex
           else raise ex
       end
   end)%M.

Definition range3 : list Z := [0; 1; 2]%Z.

Definition bot_api (method : str) (params : list (str * json)) : M json :=
  (r <- bot_api_attempts range3 method params ;;
   ok <- lift (getitem r (lit "ok")) ;;
   if negb (truthy ok)
   then e <- lift (new_BotAPIFailed r) ;; raise e
   else lift (getitem r (lit "result")))%M.

(** [__getattr__]: an attribute that is neither a method of the class nor
    set by [__init__] is a remote method of that name. *)
Definition __getattr__ (name : str) : list (str * json) -> M json :=
  fun kwargs => bot_api name kwargs.

(* ================================================================== *)
(** ** [serve] *)
(* ================================================================== *)

Definition callback : Type := json -> M unit.

(** [kwargs[k](self, v)]; the call is recorded in the log before the
    callback runs. *)
Definition invoke (k : str) (f : callback) (v : json) : M unit :=
  (emit (ECall k v) ;;; f v)%M.

(** [for k, v in upd.items(): ...] *)
Fixpoint dispatch_items (kwargs : list (str * callback))
         (its : list (str * json)) : M unit :=
  (match its with
   | [] => ret tt
   | (k, v) :: its' =>
       (if str_eqb k (lit "update_id") then ret tt
        else match lookup k kwargs with
             | Some f => invoke k f v
             | None => ret tt
             end) ;;;
       dispatch_items kwargs its'
   end)%M.

(** [for upd in updates: ...] *)
Fixpoint dispatch (kwargs : list (str * callback)) (upds : list json)
  : M unit :=
  (match upds with
   | [] => ret tt
   | upd :: upds' =>
       its <- lift (items upd) ;;
       dispatch_items kwargs its ;;;
       dispatch kwargs upds'
   end)%M.

(** [self.bot_api('getUpdates', offset=self.offset, timeout=30)] *)
Definition getUpdates : M json :=
  (me <- get_self ;;
   bot_api (lit "getUpdates")
           [(lit "offset", offset me); (lit "timeout", JInt 30)])%M.

(** How the [try] statement of the loop body ends: by [continue], or by
    falling through to the statement after it. The local variable
    [updates] is [None] while unbound. *)
Inductive flow : Type :=
| Continue
| FallThrough (updates : option json).

Definition fetch (updates : option json) : M flow :=
  (r <- try getUpdates ;;
   match r with
   | inr u => ret (FallThrough (Some u))
   | inl ex =>
       match ex with
       | BotAPIFailed _ _ _ parameters =>
           has <- (if truthy parameters
                   then lift (contains (lit "retry_after") parameters)
                   else ret false) ;;
           (if has : bool
            then n <- lift (getitem parameters (lit "retry_after")) ;;
                 d <- lift (seconds n) ;;
                 sleep d
            else ret tt) ;;;
           ret (FallThrough updates)
       | _ =>
           if is_Exception ex
           then logging_exception (lit "Get updates failed.") ex ;;;
                ret Continue
           else raise ex
       end
   end)%M.

(** The statements after the [try] statement, from [if not updates:]. *)
Definition process (kwargs : list (str * callback)) (updates : option json)
  : M unit :=
  (match updates with
   | None => raise UnboundLocalError
   | Some u =>
       if negb (truthy u) then ret tt                        (* continue *)
       else
         l <- lift (getitem_last u) ;;
         i <- lift (getitem l (lit "update_id")) ;;
         o <- lift (add1 i) ;;
         set_offset o ;;;
         upds <- lift (iter u) ;;
         dispatch kwargs upds ;;;
         sleep (2 # 10)
   end)%M.

(** One pass through the body of [while self.run:]; the value is the
    local variable [updates] at the end of the pass. *)
Definition serve_body (kwargs : list (str * callback))
           (updates : option json) : M (option json) :=
  (f <- fetch updates ;;
   match f with
   | Continue => ret updates
   | FallThrough updates' => process kwargs updates' ;;; ret updates'
   end)%M.

Inductive outcome : Type :=
| Returned
| Raised (e : exn)
| OutOfFuel.

(** [while self.run: ...], at most [fuel] tests of the condition. *)
Fixpoint serve_loop (kwargs : list (str * callback)) (fuel : nat)
         (updates : option json) (s : state) : outcome * state :=
  match fuel with
  | O => (OutOfFuel, s)
  | S fuel' =>
      if run (self s) then
        match serve_body kwargs updates s with
        | (inl e, s') => (Raised e, s')
        | (inr updates', s') => serve_loop kwargs fuel' updates' s'
        end
      else (Returned, s)
  end.

Definition serve (kwargs : list (str * callback)) (fuel : nat)
  : state -> outcome * state :=
  serve_loop kwargs fuel None.

(* ================================================================== *)
(** ** Vocabulary of the statements *)
(* ================================================================== *)

(** The state after one HTTP attempt of [method] with [params]. *)
Definition posted (method : str) (params : list (str * json)) (s : state)
  : state :=
  mkState (self s) (net s) (S (calls s))
          (log s ++ [EPost (token (self s)) method params 45]).

(** The state after one more event. *)
Definition logged (e : event) (s : state) : state :=
  mkState (self s) (net s) (calls s) (log s ++ [e]).

(** The state after [self.offset = v]. *)
Definition with_offset (v : json) (s : state) : state :=
  mkState (mkClient (token (self s)) (username (self s)) v (run (self s)))
          (net s) (calls s) (log s).

(** The parameters [serve] sends with [getUpdates] in state [s]. *)
Definition poll_params (s : state) : list (str * json) :=
  [(lit "offset", offset (self s)); (lit "timeout", JInt 30)].

(** The state after the single attempt of a [getUpdates] call. *)
Definition polled (s : state) : state :=
  posted (lit "getUpdates") (poll_params s) s.

(** A decoded envelope whose [ok] flag is true and whose result is [r]. *)
Definition success (body r : json) : Prop :=
  exists okv, getitem body (lit "ok") = inr okv /\ truthy okv = true /\
              getitem body (lit "result") = inr r.

(** A decoded envelope whose [ok] flag is false and from which
    [BotAPIFailed] builds [e]. *)
Definition failure (body : json) (e : exn) : Prop :=
  exists okv, getitem body (lit "ok") = inr okv /\ truthy okv = false /\
              new_BotAPIFailed body = inr e.

(** The events of a call of [bot_api]: HTTP attempts and retry delays,
    which are whole numbers of seconds. *)
Definition attempt_event (e : event) : Prop :=
  match e with
  | EPost _ _ _ _ => True
  | ESleep d => Qden d = 1%positive
  | _ => False
  end.

(** A computation that leaves the client object and the oracle alone,
    never takes back an attempt and only adds attempts and retry delays
    to the log. *)
Definition keeps_client {A} (c : M A) : Prop :=
  forall s, self (snd (c s)) = self s /\ net (snd (c s)) = net s /\
            (calls s <= calls (snd (c s)))%nat /\
            exists evs, log (snd (c s)) = log s ++ evs /\
                        Forall attempt_event evs.

(** A computation that does not assign [self.offset]. *)
Definition keeps_offset {A} (c : M A) : Prop :=
  forall s, offset (self (snd (c s))) = offset (self s).

(** No callback of [kwargs] assigns [self.offset]. *)
Definition callbacks_keep_offset (kwargs : list (str * callback)) : Prop :=
  forall k f v, lookup k kwargs = Some f -> keeps_offset (f v).

(** The integer identifiers of the updates of a batch. *)
Fixpoint identifiers (upds : list json) : list Z :=
  match upds with
  | [] => []
  | u :: upds' =>
      match getitem u (lit "update_id") with
      | inr (JInt i) => i :: identifiers upds'
      | _ => identifiers upds'
      end
  end.

(** The names normal attribute lookup finds on a client, so that
    [__getattr__] is not consulted for them. *)
Definition own_attributes : list str :=
  List.map lit ["token"; "username"; "config"; "offset"; "run"; "bot_api";
                "parse_cmd"; "serve"]%string.

Definition has_own_attribute (name : str) : bool :=
  existsb (str_eqb name) own_attributes.

(* ================================================================== *)
(** ** Sample envelopes, callbacks and worlds *)
(* ================================================================== *)

Definition ok_body (r : json) : json :=
  JDict [(lit "ok", JBool true); (lit "result", r)].

Definition error_body (code : Z) (description : str)
           (parameters : list (str * json)) : json :=
  JDict [(lit "ok", JBool false); (lit "error_code", JInt code);
         (lit "description", JStr description);
         (lit "parameters", JDict parameters)].

Definition too_many_requests (n : Z) : json :=
  error_body 429 (lit "Too Many Requests") [(lit "retry_after", JInt n)].

Definition not_found : json :=
  JDict [(lit "ok", JBool false); (lit "error_code", JInt 404);
         (lit "description", JStr (lit "Not Found"))].

Definition update (i : Z) (kind : str) (payload : json) : json :=
  JDict [(lit "update_id", JInt i); (kind, payload)].

Definition ConnectionError : exn := OtherException (lit "ConnectionError").

(** A world that answers the n-th attempt with the n-th element of [l],
    and with a connection error afterwards. *)
Definition script (l : list attempt) : nat -> attempt :=
  fun n => nth n l (Raises ConnectionError).

Definition start (me : client) (l : list attempt) : state :=
  mkState me (script l) 0 [].

Definition noop : callback := fun _ => ret tt.

(** A callback that does [cli.run = False]. *)
Definition stopper : callback :=
  fun _ s =>
    (inr tt,
     mkState (mkClient (token (self s)) (username (self s))
                       (offset (self s)) false)
             (net s) (calls s) (log s)).

(** A callback that raises. *)
Definition failing : callback := fun _ => raise (OtherException (lit "boom")).


Definition text_message (t : string) : json :=
  JDict [(lit "text", JStr (lit t))].

(* ================================================================== *)
(** ** More vocabulary *)
(* ================================================================== *)

(** What [bot_api] makes of a decoded body, after the loop of attempts:
    the statements from [if not ret['ok']:] on, which touch no state. *)
Definition envelope (body : json) : result json :=
  (ok <- getitem body (lit "ok") ;;
   if negb (truthy ok)
   then e <- new_BotAPIFailed body ;; inl e
   else getitem body (lit "result"))%res.

Definition whitespace (ws : str) : Prop :=
  Forall (fun c => isspace c = true) ws.

(** The order of cursors: an integer cursor is followed only by an
    integer cursor at least as large; a cursor that is not yet set is
    below every cursor. *)
Definition cursor_le (a b : json) : Prop :=
  match a with
  | JInt x => match b with JInt y => (x <= y)%Z | _ => False end
  | _ => True
  end.

Definition has_identifier (u : json) : Prop :=
  exists i, getitem u (lit "update_id") = inr (JInt i).

(** What the service answers to [getUpdates] sent with the offset
    [cursor]: a list of updates, each with an integer identifier, the
    identifiers strictly increasing and none below the offset. *)
Definition ascending_from (cursor r : json) : Prop :=
  exists batch,
    r = JList batch /\ Forall has_identifier batch /\
    StronglySorted Z.lt (identifiers batch) /\
    forall c, cursor = JInt c -> Forall (fun i => (c <= i)%Z) (identifiers batch).

(** The service answers so in every fetch of the first [fuel] passes of
    the loop. *)
Fixpoint honoured (kwargs : list (str * callback)) (fuel : nat)
         (updates : option json) (s : state) : Prop :=
  match fuel with
  | O => True
  | S fuel' =>
      if run (self s) then
        (forall r s1, getUpdates s = (inr r, s1) ->
                      ascending_from (offset (self s)) r) /\
        match serve_body kwargs updates s with
        | (inr updates', s') => honoured kwargs fuel' updates' s'
        | (inl _, _) => True
        end
      else True
  end.

(** The local [updates], when it holds a non-empty batch, holds the batch
    the cursor was last set from. *)
Definition cursor_of_updates (updates : option json) (s : state) : Prop :=
  match updates with
  | None => True
  | Some r =>
      truthy r = false \/
      exists batch l i,
        r = JList batch /\ last_opt batch = Some l /\
        getitem l (lit "update_id") = inr (JInt i) /\
        offset (self s) = JInt (i + 1)
  end.

(** A world in which every HTTP attempt raises an [Exception] (one the
    oracle raises is never a [BotAPIFailed], which only [bot_api]
    builds). *)
Definition dead (s : state) : Prop :=
  forall n, exists e,
    net s n = Raises e /\ is_Exception e = true /\ is_BotAPIFailed e = false.

(* ================================================================== *)
(** ** [mdescape] *)
(* ================================================================== *)

Definition BACKSLASH : char := 92%N.   (* '\' *)

(** The class [[\[\*_]] of [re_mdescape]: one of the characters
    '[', '*' and '_'. *)
Definition md_special (c : char) : bool :=
  ((c =? 91) || (c =? 42) || (c =? 95))%N.

(** [re_mdescape.sub(r'\\\1', s)]: a backslash is put before every match. *)
Fixpoint mdescape (s : str) : str :=
  match s with
  | [] => []
  | c :: s' =>
      if md_special c then BACKSLASH :: c :: mdescape s'
      else c :: mdescape s'
  end.

(* ================================================================== *)
(** ** [message_handler] *)
(* ================================================================== *)

(** [o.get(k, d)] *)
Definition get_default (o : json) (k : str) (d : json) : result json :=
  match o with
  | JDict l => inr (match lookup k l with Some v => v | None => d end)
  | _ => inl AttributeError
  end.

(** A command handler, called as [h(cli, msg, expr)]: it returns a string
    or [None], may raise, and may act on the client and the world. *)
Definition handler : Type := json -> option str -> M (option str).

(** [lambda *args: None] *)
Definition cmd_start : handler := fun _ _ => ret None.

Definition fallback_text : str :=
  lit "Failed to fetch data. Please try again later.".

(** The keyword arguments of the [sendMessage] call. *)
Definition reply_params (chat_id : json) (text : str) : list (str * json) :=
  [(lit "chat_id", chat_id); (lit "text", JStr text);
   (lit "parse_mode", JStr (lit "Markdown"));
   (lit "disable_web_page_preview", JBool true)].

Section Handlers.

(** The three handlers that query the package site, and [logging.info],
    are taken as they come. *)
Variables cmd_pkgver cmd_search cmd_getupdreq : handler.
Variable logging_info : str -> M unit.

Definition cmds : list (str * handler) :=
  [(lit "pkgver", cmd_pkgver); (lit "search", cmd_search);
   (lit "getupdreq", cmd_getupdreq); (lit "start", cmd_start)].

(** The first [try] statement of [message_handler]; its value is [ret]. *)
Definition run_command (h : handler) (msg : json) (expr : option str)
           (msgtext : str) : M (option str) :=
  (r <- try (v <- h msg expr ;;
             logging_info (lit "Command: " ++ msgtext) ;;;
             ret v) ;;
   match r with
   | inr v => ret v
   | inl ex =>
       if is_Exception ex
       then logging_exception (lit "Failed command: " ++ msgtext) ex ;;;
            ret (Some fallback_text)
       else raise ex
   end)%M.

(** The second [try] statement of [message_handler]. *)
Definition send_reply (msg : json) (text : str) : M unit :=
  (r <- try (chat <- lift (getitem msg (lit "chat")) ;;
             chat_id <- lift (getitem chat (lit "id")) ;;
             __getattr__ (lit "sendMessage") (reply_params chat_id text)) ;;
   match r with
   | inr _ => ret tt
   | inl ex =>
       if is_Exception ex
       then logging_exception (lit "Failed to send: " ++ text) ex
       else raise ex
   end)%M.

Definition message_handler (msg : json) : M unit :=
  (v <- lift (get_default msg (lit "text") (JStr [])) ;;
   match v with
   | JStr msgtext =>
       me <- get_self ;;
       p <- lift (parse_cmd me msgtext) ;;
       match fst p with
       | None => ret tt                                   (* if not cmd *)
       | Some cmd =>
           if is_empty cmd then ret tt
           else match lookup cmd cmds with
                | None => ret tt
                | Some h =>
                    reply <- run_command h msg (snd p) msgtext ;;
                    match reply with
                    | None => ret tt                      (* if not ret *)
                    | Some text =>
                        if is_empty text then ret tt
                        else send_reply msg text
                    end
                end
       end
   | _ => raise AttributeError            (* no [strip] on a non-string *)
   end)%M.

End Handlers.

(** The text of a message object: [msg.get('text', '')]. *)
Definition msg_text (d : list (str * json)) : json :=
  match lookup (lit "text") d with Some v => v | None => JStr [] end.

(** A world in which no HTTP attempt raises anything but an
    [Exception]. *)
Definition tame (s : state) : Prop :=
  forall n e, net s n = Raises e -> is_Exception e = true.

(** A handler that raises nothing but [Exception]s and leaves a tame
    world tame. *)
Definition handler_ok (h : handler) : Prop :=
  forall msg expr s,
    (forall ex, fst (h msg expr s) = inl ex -> is_Exception ex = true) /\
    (tame s -> tame (snd (h msg expr s))).

(** A logging function that returns and leaves a tame world tame. *)
Definition logger_ok (info : str -> M unit) : Prop :=
  forall m s, fst (info m s) = inr tt /\ (tame s -> tame (snd (info m s))).

(** A handler or logger that assigns no attribute of the client. *)
Definition keeps_self {A} (c : M A) : Prop :=
  forall s, self (snd (c s)) = self s.

(** The calls one update asks for: for each payload whose kind has a
    callback, the kind, that callback and the payload, in the order of
    the keys. *)
Fixpoint payloads (kwargs : list (str * callback))
         (its : list (str * json)) : list (str * callback * json) :=
  match its with
  | [] => []
  | (k, v) :: its' =>
      (if str_eqb k (lit "update_id") then []
       else match lookup k kwargs with
            | Some f => [(k, f, v)]
            | None => []
            end) ++ payloads kwargs its'
  end.

Fixpoint batch_payloads (kwargs : list (str * callback)) (upds : list json)
  : list (str * callback * json) :=
  match upds with
  | [] => []
  | JDict d :: upds' => payloads kwargs d ++ batch_payloads kwargs upds'
  | _ :: upds' => batch_payloads kwargs upds'
  end.

(** The callbacks of a list of calls applied one after the other, each
    call recorded in the log just before it is made; a callback that
    raises ends the sequence. *)
Fixpoint apply_all (l : list (str * callback * json)) : M unit :=
  match l with
  | [] => ret tt
  | (k, f, v) :: l' => (emit (ECall k v) ;;; f v ;;; apply_all l')%M
  end.

Definition is_dict (o : json) : Prop := exists d, o = JDict d.

(** A value that is neither a number nor a truth value: adding 1 to it
    raises. *)
Definition not_a_number (v : json) : Prop :=
  match v with
  | JNull | JStr _ | JList _ | JDict _ => True
  | JBool _ | JInt _ => False
  end.

(** An update object all of whose [message] payloads are objects with a
    string for text, or with no text. *)
Definition good_update (u : json) : Prop :=
  exists d, u = JDict d /\
            forall v, In (lit "message", v) d ->
                      exists md t, v = JDict md /\ msg_text md = JStr t.

(** Sample handlers and logger. *)
Definition h_version : handler :=
  fun _ expr => ret (match expr with Some e => Some (lit "*source*: " ++ e)
                                   | None => None end).

Definition h_broken : handler := fun _ _ => raise (OtherException (lit "HTTPError")).

Definition quiet : str -> M unit := fun _ => ret tt.

Definition chat_fields (chat_id : Z) (t : str) : list (str * json) :=
  [(lit "chat", JDict [(lit "id", JInt chat_id)]); (lit "text", JStr t)].

Definition chat_message (chat_id : Z) (t : str) : json :=
  JDict (chat_fields chat_id t).

(* ================================================================== *)
(** ** Sample runs of [parse_cmd] *)
(* ================================================================== *)

Example parse_cmd_ex1 :
  parse_cmd bot (lit "  /pkgver@bot  gcc ")
  = inr (Some (lit "pkgver"), Some (lit " gcc")).
Proof. reflexivity. Qed.

Example parse_cmd_ex2 :
  parse_cmd bot (lit "/pkgver@other gcc") = inr (None, None).
Proof. reflexivity. Qed.

Example parse_cmd_ex3 :
  parse_cmd bot (lit "/a@b@bot") = inr (Some (lit "a@b"), Some []).
Proof. reflexivity. Qed.

(** Leading and trailing whitespace of any kind is trimmed, and a
    non-breaking space separates the verb from its argument. *)
Example parse_cmd_ex4 :
  parse_cmd bot (NBSP :: lit "/search" ++ NBSP :: lit "vim" ++ [12288%N])
  = inr (Some (lit "search"), Some (lit "vim")).
Proof. reflexivity. Qed.

Example parse_cmd_ex5 : parse_cmd bot [] = inr (None, None).
Proof. reflexivity. Qed.

(* ================================================================== *)
(** ** Facts about the string operations *)
(* ================================================================== *)

Lemma str_eqb_refl (a : str) : str_eqb a a = true.
Proof.
  induction a as [|x a IH]; simpl; [reflexivity|].
  unfold char_eqb. now rewrite N.eqb_refl.
Qed.

Lemma str_eqb_eq (a b : str) : str_eqb a b = true <-> a = b.
Proof.
  split; [|intros ->; apply str_eqb_refl].
  revert b. induction a as [|x a IH]; intros [|y b]; simpl; try easy.
  intros H. apply andb_prop in H as [Hx Hr].
  apply N.eqb_eq in Hx. apply IH in Hr. now subst.
Qed.

Lemma str_eqb_neq (a b : str) : a <> b -> str_eqb a b = false.
Proof.
  intros H. destruct (str_eqb a b) eqn:E; [|reflexivity].
  now apply str_eqb_eq in E.
Qed.

Lemma break_some_inv (sep : char) (s h r : str) :
  break sep s = (h, Some r) -> s = h ++ sep :: r /\ ~ In sep h.
Proof.
  revert h r. induction s as [|c s IH]; intros h r; simpl; [discriminate|].
  unfold char_eqb. destruct (N.eqb_spec c sep) as [->|Hne].
  - intros [= <- <-]. now split.
  - destruct (break sep s) as [h' r'] eqn:E. intros [= <- ->].
    destruct (IH h' r eq_refl) as [-> Hn]. split; [reflexivity|].
    simpl. intros [Hc|Hi]; [now apply Hne | now apply Hn].
Qed.

Lemma break_none_inv (sep : char) (s h : str) :
  break sep s = (h, None) -> s = h /\ ~ In sep h.
Proof.
  revert h. induction s as [|c s IH]; intros h; simpl.
  - intros [= <-]. now split.
  - unfold char_eqb. destruct (N.eqb_spec c sep) as [->|Hne]; [discriminate|].
    destruct (break sep s) as [h' r'] eqn:E. intros [= <- ->].
    destruct (IH h' eq_refl) as [-> Hn]. split; [reflexivity|].
    simpl. intros [Hc|Hi]; [now apply Hne | now apply Hn].
Qed.

Lemma break_app (sep : char) (h r : str) :
  ~ In sep h -> break sep (h ++ sep :: r) = (h, Some r).
Proof.
  induction h as [|c h IH]; simpl; intros Hn.
  - unfold char_eqb. now rewrite N.eqb_refl.
  - unfold char_eqb. destruct (N.eqb_spec c sep) as [->|Hne].
    + exfalso. apply Hn. now left.
    + rewrite IH; [reflexivity|]. intros Hi. apply Hn. now right.
Qed.

Lemma break_nosep (sep : char) (s : str) :
  ~ In sep s -> break sep s = (s, None).
Proof.
  induction s as [|c s IH]; simpl; intros Hn; [reflexivity|].
  unfold char_eqb. destruct (N.eqb_spec c sep) as [->|Hne].
  - exfalso. apply Hn. now left.
  - rewrite IH; [reflexivity|]. intros Hi. apply Hn. now right.
Qed.

Lemma split1_app (sep : char) (h r : str) :
  ~ In sep h -> split1 sep (h ++ sep :: r) = [h; r].
Proof. intros Hn. unfold split1. now rewrite break_app. Qed.

Lemma split1_nosep (sep : char) (s : str) :
  ~ In sep s -> split1 sep s = [s].
Proof. intros Hn. unfold split1. now rewrite break_nosep. Qed.

Lemma rsplit1_app (sep : char) (h r : str) :
  ~ In sep r -> rsplit1 sep (h ++ sep :: r) = [h; r].
Proof.
  intros Hn. unfold rsplit1.
  replace (rev (h ++ sep :: r)) with (rev r ++ sep :: rev h).
  - rewrite break_app.
    + now rewrite !rev_involutive.
    + intros Hi. apply Hn. now apply in_rev.
  - rewrite rev_app_distr. simpl. now rewrite <- app_assoc.
Qed.

Lemma rsplit1_nosep (sep : char) (s : str) :
  ~ In sep s -> rsplit1 sep s = [s].
Proof.
  intros Hn. unfold rsplit1. rewrite break_nosep.
  - now rewrite rev_involutive.
  - intros Hi. apply Hn. now apply in_rev.
Qed.

(** The first field of [rsplit1] is a prefix of the string. *)
Lemma rsplit1_prefix (sep : char) (s : str) :
  exists c0 rest tl_, rsplit1 sep s = c0 :: rest /\ s = c0 ++ tl_.
Proof.
  unfold rsplit1. destruct (break sep (rev s)) as [t [h|]] eqn:E.
  - apply break_some_inv in E as [E _].
    exists (rev h), [rev t], (sep :: rev t). split; [reflexivity|].
    rewrite <- (rev_involutive s), E, rev_app_distr. simpl.
    now rewrite <- app_assoc.
  - apply break_none_inv in E as [E _].
    exists (rev t), [], []. split; [reflexivity|].
    now rewrite app_nil_r, <- E, rev_involutive.
Qed.

(** [t] has one or two fields: the head token, and the remainder when the
    text has a space. *)
Lemma cmd_fields_shape (text : str) :
  cmd_fields text = [head_token text] \/
  cmd_fields text = [head_token text; remainder text].
Proof.
  unfold head_token, remainder, cmd_fields, split1.
  destruct (break SPACE _) as [h [r|]]; simpl; auto.
Qed.

(** The head token is the normalised, trimmed text up to its first
    space. *)
Lemma head_token_prefix (text : str) :
  exists r, replace NBSP SPACE (strip text) = head_token text ++ r.
Proof.
  unfold head_token, cmd_fields, split1.
  destruct (break SPACE _) as [h [r|]] eqn:E; simpl.
  - apply break_some_inv in E as [E _]. eauto.
  - apply break_none_inv in E as [E _]. exists []. now rewrite app_nil_r.
Qed.

(* ================================================================== *)
(** ** [parse_cmd], by the shape of the head token *)
(* ================================================================== *)

Section ParseCmd.

Variable me : client.
Variable text : str.

Ltac fields :=
  unfold parse_cmd;
  destruct (cmd_fields_shape text) as [Ht|Ht]; rewrite Ht;
  cbn [is_empty index nth_error rbind].

Lemma parse_cmd_short (c0 : str) (rest : list str) :
  rsplit1 AT (head_token text) = c0 :: rest ->
  (List.length c0 < 2)%nat ->
  parse_cmd me text = inr (None, None).
Proof.
  intros Hc Hl. apply Nat.ltb_lt in Hl.
  fields; rewrite Hc; cbn [index nth_error rbind]; now rewrite Hl.
Qed.

Lemma parse_cmd_nomarker (c0 : str) (x : char) (rest : list str) :
  rsplit1 AT (head_token text) = (x :: c0) :: rest ->
  x <> SLASH ->
  parse_cmd me text = inr (None, None).
Proof.
  intros Hc Hx. apply N.eqb_neq in Hx.
  fields; rewrite Hc; cbn [index nth_error rbind];
    (destruct c0 as [|y c0]; [reflexivity|]);
    cbn [List.length Nat.ltb Nat.leb index nth_error rbind];
    unfold char_eqb; now rewrite Hx.
Qed.

Lemma parse_cmd_mismatch (c0 h : str) :
  rsplit1 AT (head_token text) = [c0; h] ->
  h <> username me ->
  parse_cmd me text = inr (None, None).
Proof.
  intros Hc Hh. apply str_eqb_neq in Hh.
  fields; rewrite Hc; cbn [index nth_error rbind];
    (destruct c0 as [|x [|y c0]]; [reflexivity | reflexivity |]);
    cbn [List.length Nat.ltb Nat.leb index nth_error rbind];
    (destruct (negb (char_eqb x SLASH)); [reflexivity|]);
    cbn; now rewrite Hh.
Qed.

Lemma parse_cmd_accept (v : str) (sfx : list str) :
  rsplit1 AT (head_token text) = (SLASH :: v) :: sfx ->
  v <> [] ->
  sfx = [] \/ sfx = [username me] ->
  parse_cmd me text = inr (Some v, Some (remainder text)).
Proof.
  intros Hc Hv Hs.
  assert (Hl : (List.length (SLASH :: v) <? 2)%nat = false).
  { destruct v; [easy|]. reflexivity. }
  fields; rewrite Hc; cbn [index nth_error rbind]; rewrite Hl;
    cbn [index nth_error rbind];
    (destruct Hs as [-> | ->]; cbn; rewrite ?str_eqb_refl; cbn);
    unfold remainder; now rewrite Ht.
Qed.

End ParseCmd.

Lemma rsplit1_shape (sep : char) (s : str) :
  (rsplit1 sep s = [s] /\ ~ In sep s) \/
  (exists c0 h, rsplit1 sep s = [c0; h] /\ s = c0 ++ sep :: h /\ ~ In sep h).
Proof.
  unfold rsplit1. destruct (break sep (rev s)) as [t [h|]] eqn:E.
  - right. apply break_some_inv in E as [E Hn].
    exists (rev h), (rev t). split; [reflexivity|]. split.
    + rewrite <- (rev_involutive s), E, rev_app_distr. simpl.
      now rewrite <- app_assoc.
    + intros Hi. apply Hn. now apply in_rev.
  - left. apply break_none_inv in E as [E Hn]. subst t.
    rewrite rev_involutive. split; [reflexivity|].
    intros Hi. apply Hn. now apply in_rev in Hi.
Qed.

Lemma replace_id (old new : char) (s : str) :
  ~ In old s -> replace old new s = s.
Proof.
  induction s as [|c s IH]; simpl; intros Hn; [reflexivity|].
  unfold char_eqb. destruct (N.eqb_spec c old) as [->|Hne].
  - exfalso. apply Hn. now left.
  - f_equal. apply IH. intros Hi. apply Hn. now right.
Qed.

(** Closes [~ In c (lit "...")] for literals. *)
Ltac notin_lit :=
  let H := fresh in
  intros H; vm_compute in H;
  repeat (destruct H as [H|H]; [discriminate H|]); exact H.

(* ================================================================== *)
(** ** Texts that are not a command (C7) *)
(* ================================================================== *)

(** C7. [parse_cmd] never raises: it returns a pair on every string; and
    it returns [(None, None)] on every text that is empty, does not start
    with the marker once trimmed, has an empty verb after the marker, or
    carries a handle suffix other than the client's. *)
Theorem parse_cmd_total (me : client) (text : str) :
  (exists r, parse_cmd me text = inr r) /\
  (not_a_command me text -> parse_cmd me text = inr (None, None)).
Proof.
  split.
  - assert (G : forall c0 rest, rsplit1 AT (head_token text) = c0 :: rest ->
                 rest = [] \/ (exists h, rest = [h]) ->
                 exists r, parse_cmd me text = inr r).
    { intros c0 rest Hc Hrest. destruct c0 as [|x [|y v]].
      - eexists. apply parse_cmd_short with (c0 := []) (rest := rest); [exact Hc|simpl; lia].
      - eexists. apply parse_cmd_short with (c0 := [x]) (rest := rest); [exact Hc|simpl; lia].
      - destruct (N.eq_dec x SLASH) as [->|Hx].
        + destruct Hrest as [->|[h ->]].
          * eexists. apply parse_cmd_accept with (sfx := []); [exact Hc|easy|now left].
          * destruct (list_eq_dec N.eq_dec h (username me)) as [->|Hh].
            -- eexists. apply parse_cmd_accept with (sfx := [username me]);
                 [exact Hc|easy|now right].
            -- eexists. now apply parse_cmd_mismatch with (c0 := SLASH :: y :: v) (h := h).
        + eexists. now apply parse_cmd_nomarker with (x := x) (c0 := y :: v) (rest := rest). }
    destruct (rsplit1_shape AT (head_token text)) as [[Hc _]|(c0 & h & Hc & _ & _)].
    + apply (G _ _ Hc). now left.
    + apply (G _ _ Hc). right. now exists h.
  - intros [Hempty|[Hnm|[Hshort|Hforeign]]].
    + subst text. reflexivity.
    + destruct (rsplit1_prefix AT (head_token text)) as (c0 & rest & tl_ & Hc & Hp).
      destruct c0 as [|x c0].
      * apply parse_cmd_short with (c0 := []) (rest := rest); [exact Hc|simpl; lia].
      * apply parse_cmd_nomarker with (x := x) (c0 := c0) (rest := rest); [exact Hc|].
        destruct (head_token_prefix text) as [r Hr].
        rewrite Hp in Hr. simpl in Hr. unfold no_marker in Hnm.
        destruct (strip text) as [|y s]; [discriminate|].
        simpl in Hr. injection Hr as Hx _. intros ->.
        unfold char_eqb in Hx. destruct (N.eqb_spec y NBSP) as [->|Hy].
        -- discriminate Hx.
        -- subst y. now apply (Hnm s).
    + destruct Hshort as [Hh|(h & Hn & Hh)].
      * apply parse_cmd_short with (c0 := [SLASH]) (rest := []); [|simpl; lia].
        rewrite Hh. apply rsplit1_nosep. notin_lit.
      * apply parse_cmd_short with (c0 := [SLASH]) (rest := [h]); [|simpl; lia].
        rewrite Hh. now apply (@rsplit1_app AT [SLASH] h Hn).
    + destruct Hforeign as (p & h & Hn & Hh & Hne).
      apply parse_cmd_mismatch with (c0 := p) (h := h); [|exact Hne].
      rewrite Hh. now apply rsplit1_app.
Qed.

Lemma parse_cmd_total_witness :
  parse_cmd bot (lit "hello /pkgver") = inr (None, None) /\
  parse_cmd bot (lit "/@bot gcc") = inr (None, None) /\
  parse_cmd bot (lit "/pkgver@aosc gcc") = inr (None, None).
Proof.
  split; [|split].
  - apply (proj2 (parse_cmd_total bot (lit "hello /pkgver"))).
    right; left. intros r H. vm_compute in H. discriminate H.
  - apply (proj2 (parse_cmd_total bot (lit "/@bot gcc"))).
    right; right; left. right. exists (lit "bot"). split; [notin_lit|reflexivity].
  - apply (proj2 (parse_cmd_total bot (lit "/pkgver@aosc gcc"))).
    right; right; right. exists (lit "/pkgver"), (lit "aosc").
    split; [notin_lit|]. split; [reflexivity|].
    intros H. vm_compute in H. discriminate H.
Defined.

(* ================================================================== *)
(** ** Handle suffixes (C6) *)
(* ================================================================== *)

(** C6. When the head token is [/<verb>@<handle>] ([handle] being what
    follows the last [@]): a handle other than the client's gives
    [(None, None)]; the client's own handle gives the (non-empty) verb
    and the remainder. *)
Theorem parse_cmd_handle_suffix (me : client) (text verb handle : str) :
  head_token text = SLASH :: verb ++ AT :: handle ->
  ~ In AT handle ->
  (handle <> username me -> parse_cmd me text = inr (None, None)) /\
  (handle = username me -> verb <> [] ->
   parse_cmd me text = inr (Some verb, Some (remainder text))).
Proof.
  intros Hh Hn.
  assert (Hc : rsplit1 AT (head_token text) = [SLASH :: verb; handle]).
  { rewrite Hh. now apply (@rsplit1_app AT (SLASH :: verb) handle Hn). }
  split.
  - intros Hne. now apply parse_cmd_mismatch with (c0 := SLASH :: verb) (h := handle).
  - intros -> Hv. apply parse_cmd_accept with (sfx := [username me]); auto.
Qed.

Lemma parse_cmd_handle_suffix_witness :
  parse_cmd bot (lit "/pkgver@aosc gcc") = inr (None, None) /\
  parse_cmd bot (lit "/pkgver@bot gcc") = inr (Some (lit "pkgver"), Some (lit "gcc")).
Proof.
  split.
  - apply (proj1 (parse_cmd_handle_suffix bot (lit "/pkgver@aosc gcc")
                    (lit "pkgver") (lit "aosc") eq_refl ltac:(notin_lit))).
    intros H. vm_compute in H. discriminate H.
  - apply (proj2 (parse_cmd_handle_suffix bot (lit "/pkgver@bot gcc")
                    (lit "pkgver") (lit "bot") eq_refl ltac:(notin_lit))).
    + reflexivity.
    + discriminate.
Defined.

(* ================================================================== *)
(** ** Valid commands (C5) *)
(* ================================================================== *)

(** C5, as stated, fails: the argument is not the text after the first
    space of the trimmed input when that text holds a non-breaking
    space. On ["/a b\xa0c"] the argument returned is ["b c"]. *)
Lemma parse_cmd_rest_not_verbatim :
  ~ (forall (me : client) (text verb rest : str),
        strip text = SLASH :: verb ++ SPACE :: rest ->
        verb <> [] -> ~ In SPACE verb -> ~ In AT verb ->
        parse_cmd me text = inr (Some verb, Some rest)).
Proof.
  intros H.
  specialize (H bot (lit "/a b" ++ NBSP :: lit "c") (lit "a")
                (lit "b" ++ NBSP :: lit "c") eq_refl).
  assert (Hv : lit "a" <> []) by discriminate.
  specialize (H Hv ltac:(notin_lit) ltac:(notin_lit)).
  vm_compute in H. discriminate H.
Qed.

(** C5, amended. For a text that, once trimmed and with each non-breaking
    space replaced by a space, reads [/<verb><suffix> <rest>] with a
    non-empty verb and either no handle suffix or the client's own,
    [parse_cmd] returns the verb and exactly [rest]; on a trimmed text
    without non-breaking space that is the text after its first space. *)
Theorem parse_cmd_valid (me : client) (text verb sfx rest : str) :
  verb <> [] -> ~ In SPACE verb -> ~ In SPACE sfx ->
  (sfx = [] /\ ~ In AT verb) \/
  (sfx = AT :: username me /\ ~ In AT (username me)) ->
  (replace NBSP SPACE (strip text) = SLASH :: verb ++ sfx ++ SPACE :: rest ->
   parse_cmd me text = inr (Some verb, Some rest)) /\
  (~ In NBSP (strip text) ->
   strip text = SLASH :: verb ++ sfx ++ SPACE :: rest ->
   parse_cmd me text = inr (Some verb, Some rest)).
Proof.
  intros Hv Hsv Hss Hsfx.
  assert (G : replace NBSP SPACE (strip text) = SLASH :: verb ++ sfx ++ SPACE :: rest ->
              parse_cmd me text = inr (Some verb, Some rest)).
  { intros Hs.
    assert (Hf : cmd_fields text = [SLASH :: verb ++ sfx; rest]).
    { unfold cmd_fields. rewrite Hs.
      change (SLASH :: verb ++ sfx ++ SPACE :: rest)
        with ((SLASH :: verb) ++ sfx ++ SPACE :: rest).
      rewrite app_assoc. apply split1_app.
      intros Hi. simpl in Hi. destruct Hi as [Hi|Hi]; [discriminate Hi|].
      apply in_app_or in Hi as [Hi|Hi]; auto. }
    assert (Hh : head_token text = SLASH :: verb ++ sfx)
      by (unfold head_token; now rewrite Hf).
    assert (Hr : remainder text = rest)
      by (unfold remainder; now rewrite Hf).
    rewrite <- Hr.
    destruct Hsfx as [[-> Hn]|[-> Hn]].
    - apply parse_cmd_accept with (sfx := []); [|exact Hv|now left].
      rewrite Hh, app_nil_r. apply rsplit1_nosep.
      intros [Hi|Hi]; [discriminate Hi|auto].
    - apply parse_cmd_accept with (sfx := [username me]); [|exact Hv|now right].
      rewrite Hh. now apply (@rsplit1_app AT (SLASH :: verb) (username me) Hn). }
  split; [exact G|].
  intros Hnb Hs. apply G. now rewrite replace_id.
Qed.

Lemma parse_cmd_valid_witness :
  parse_cmd bot (lit " /pkgver@bot gcc" ++ NBSP :: lit "glibc ")
  = inr (Some (lit "pkgver"), Some (lit "gcc glibc")).
Proof.
  refine (proj1 (@parse_cmd_valid bot
                   (lit " /pkgver@bot gcc" ++ NBSP :: lit "glibc ")
                   (lit "pkgver") (lit "@bot") (lit "gcc glibc") _ _ _ _) _).
  - discriminate.
  - notin_lit.
  - notin_lit.
  - right. split; [reflexivity|]. notin_lit.
  - reflexivity.
Defined.

(* ================================================================== *)
(** ** Frame properties of the monadic code *)
(* ================================================================== *)

Lemma keeps_client_ret {A} (x : A) : keeps_client (ret x).
Proof.
  intros s. simpl. repeat split; auto. exists []. now rewrite app_nil_r.
Qed.

Lemma keeps_client_raise {A} (e : exn) : keeps_client (@raise A e).
Proof.
  intros s. simpl. repeat split; auto. exists []. now rewrite app_nil_r.
Qed.

Lemma keeps_client_lift {A} (r : result A) : keeps_client (lift r).
Proof.
  intros s. simpl. repeat split; auto. exists []. now rewrite app_nil_r.
Qed.

Lemma keeps_client_post m p : keeps_client (post m p).
Proof.
  intros s. unfold post.
  destruct (net s (calls s)); simpl; repeat split; auto;
    eexists; (split; [reflexivity|]); repeat constructor.
Qed.

Lemma keeps_client_sleep (z : Z) : keeps_client (sleep (inject_Z z)).
Proof.
  unfold sleep. destruct (Qle_bool 0 (inject_Z z)); [|apply keeps_client_raise].
  intros s. simpl. repeat split; auto.
  eexists; (split; [reflexivity|]); repeat constructor.
Qed.

Lemma keeps_client_bind {A B} (c : M A) (k : A -> M B) :
  keeps_client c -> (forall x, keeps_client (k x)) -> keeps_client (bind c k).
Proof.
  intros Hc Hk s. unfold bind. specialize (Hc s).
  destruct (c s) as [[e|x] s1]; simpl in *; [exact Hc|].
  destruct Hc as (H1 & H2 & H3 & r1 & H4 & F1).
  destruct (Hk x s1) as (K1 & K2 & K3 & r2 & K4 & F2).
  rewrite K1, K2, K4, H1, H2, H4. repeat split; [lia|].
  exists (r1 ++ r2). split; [now rewrite app_assoc|].
  apply Forall_app. now split.
Qed.

Lemma keeps_client_try {A} (c : M A) : keeps_client c -> keeps_client (try c).
Proof.
  intros Hc s. unfold try. specialize (Hc s). now destruct (c s).
Qed.

Create HintDb frame.
#[local] Hint Resolve keeps_client_ret keeps_client_raise keeps_client_lift
  keeps_client_post keeps_client_sleep keeps_client_try : frame.

Lemma keeps_client_attempts atts m p : keeps_client (bot_api_attempts atts m p).
Proof.
  induction atts as [|att atts IH]; simpl; [auto with frame|].
  apply keeps_client_bind; [auto with frame|].
  intros [ex|body]; [|auto with frame].
  destruct (is_Exception ex); [|auto with frame].
  destruct (att <? 1)%Z; [|auto with frame].
  apply keeps_client_bind; auto with frame.
Qed.

(** The part of [bot_api] after the loop of attempts. *)
Lemma keeps_client_envelope (r : json) :
  keeps_client
    (ok <- lift (getitem r (lit "ok")) ;;
     if negb (truthy ok)
     then e <- lift (new_BotAPIFailed r) ;; raise e
     else lift (getitem r (lit "result")))%M.
Proof.
  apply keeps_client_bind; [auto with frame|].
  intros ok. destruct (negb (truthy ok)); [|auto with frame].
  apply keeps_client_bind; auto with frame.
Qed.

(** [bot_api] mutates no attribute of the client. *)
Lemma keeps_client_bot_api m p : keeps_client (bot_api m p).
Proof.
  unfold bot_api. apply keeps_client_bind; [apply keeps_client_attempts|].
  apply keeps_client_envelope.
Qed.

(** Every call of [bot_api] makes at least one HTTP attempt, the first
    thing it does. *)
Lemma bot_api_posts m p s :
  (calls s < calls (snd (bot_api m p s)))%nat /\
  exists rest,
    log (snd (bot_api m p s))
    = log s ++ EPost (token (self s)) m p 45 :: rest.
Proof.
  pose (k := fun r : result json =>
    (body <- match r with
             | inr body => ret body
             | inl ex =>
                 if is_Exception ex
                 then sleep (inject_Z ((0 + 1) * 2)) ;;;
                      bot_api_attempts [1; 2]%Z m p
                 else raise ex
             end ;;
     ok <- lift (getitem body (lit "ok")) ;;
     if negb (truthy ok)
     then e <- lift (new_BotAPIFailed body) ;; raise e
     else lift (getitem body (lit "result")))%M).
  assert (Hk : forall r, keeps_client (k r)).
  { intros r. apply keeps_client_bind; [|apply keeps_client_envelope].
    destruct r as [ex|body]; [|auto with frame].
    destruct (is_Exception ex); [|auto with frame].
    apply keeps_client_bind; [auto with frame|].
    intros _. apply keeps_client_attempts. }
  assert (E : bot_api m p s
              = k (match net s (calls s) with
                   | Raises e => inl e | Decoded r => inr r end)
                  (posted m p s)).
  { unfold bot_api, range3, k. cbn [bot_api_attempts].
    unfold bind at 1 2, try, post, posted.
    destruct (net s (calls s)); reflexivity. }
  rewrite E.
  destruct (Hk (match net s (calls s) with
                | Raises e => inl e | Decoded r => inr r end)
               (posted m p s)) as (_ & _ & H3 & rest & H4 & _).
  split; [simpl in H3; lia|].
  exists rest. rewrite H4. simpl. now rewrite <- app_assoc.
Qed.

(* ================================================================== *)
(** ** One call of [bot_api] *)
(* ================================================================== *)

Lemma bot_api_decoded m p s body :
  net s (calls s) = Decoded body ->
  bot_api m p s
  = (ok <- lift (getitem body (lit "ok")) ;;
     if negb (truthy ok)
     then e <- lift (new_BotAPIFailed body) ;; raise e
     else lift (getitem body (lit "result")))%M (posted m p s).
Proof.
  intros H. unfold bot_api, range3. cbn [bot_api_attempts].
  unfold bind at 1 2, try, post, posted. now rewrite H.
Qed.

Lemma bot_api_success m p s body r :
  net s (calls s) = Decoded body -> success body r ->
  bot_api m p s = (inr r, posted m p s).
Proof.
  intros H (okv & Hok & Ht & Hr). rewrite (bot_api_decoded m p s body H).
  unfold bind, lift. now rewrite Hok, Ht, Hr.
Qed.

Lemma bot_api_failure m p s body e :
  net s (calls s) = Decoded body -> failure body e ->
  bot_api m p s = (inl e, posted m p s).
Proof.
  intros H (okv & Hok & Ht & He). rewrite (bot_api_decoded m p s body H).
  unfold bind, lift, raise. now rewrite Hok, Ht, He.
Qed.

(** C3 (the code departs from the claim). When the first two attempts
    raise, [bot_api] sleeps 2 after the first, raises the second
    exception as it is, and makes no third attempt: two attempts in all,
    one retry, and no sleep of 4. *)
Theorem bot_api_two_attempts m p s e0 e1 :
  net s (calls s) = Raises e0 -> is_Exception e0 = true ->
  net s (S (calls s)) = Raises e1 ->
  bot_api m p s
  = (inl e1, posted m p (logged (ESleep (inject_Z 2)) (posted m p s))) /\
  calls (snd (bot_api m p s)) = (2 + calls s)%nat /\
  log (snd (bot_api m p s))
  = log s ++ [EPost (token (self s)) m p 45; ESleep (inject_Z 2);
              EPost (token (self s)) m p 45].
Proof.
  intros H0 HE H1.
  assert (E : bot_api m p s
              = (inl e1, posted m p (logged (ESleep (inject_Z 2)) (posted m p s)))).
  { unfold bot_api, range3. cbn [bot_api_attempts].
    unfold bind, try, post, sleep, emit, raise, posted, logged. simpl.
    rewrite H0, HE. simpl. rewrite H1.
    destruct (is_Exception e1); reflexivity. }
  rewrite E. split; [reflexivity|]. split; [reflexivity|].
  simpl. now rewrite <- !app_assoc.
Qed.

Lemma bot_api_two_attempts_witness :
  let s := start bot [Raises ConnectionError; Raises ConnectionError;
                      Decoded (ok_body (JList []))] in
  fst (bot_api (lit "getUpdates") [] s) = inl ConnectionError /\
  calls (snd (bot_api (lit "getUpdates") [] s)) = 2%nat.
Proof.
  intros s.
  destruct (@bot_api_two_attempts (lit "getUpdates") [] s
              ConnectionError ConnectionError eq_refl eq_refl eq_refl)
    as (E & C & _).
  split; [now rewrite E | exact C].
Defined.

(* ================================================================== *)
(** ** One pass of the loop of [serve] *)
(* ================================================================== *)

Lemma getUpdates_eq s :
  getUpdates s = bot_api (lit "getUpdates") (poll_params s) s.
Proof. reflexivity. Qed.

Lemma getUpdates_keeps_client s r s1 :
  getUpdates s = (r, s1) -> self s1 = self s.
Proof.
  intros H.
  pose proof (keeps_client_bot_api (lit "getUpdates") (poll_params s) s) as Hk.
  rewrite <- getUpdates_eq, H in Hk. apply Hk.
Qed.

Lemma fetch_returns u s r s1 :
  getUpdates s = (inr r, s1) ->
  fetch u s = (inr (FallThrough (Some r)), s1).
Proof. intros H. unfold fetch, bind, try. now rewrite H. Qed.

Lemma Qle_bool_inject (n : Z) : (0 <= n)%Z -> Qle_bool 0 (inject_Z n) = true.
Proof.
  intros H. unfold Qle_bool, inject_Z. simpl. rewrite Z.mul_1_r.
  now apply Z.leb_le.
Qed.

Lemma fetch_rate_limited u s r dsc code ps n s1 :
  getUpdates s = (inl (BotAPIFailed r dsc code (JDict ps)), s1) ->
  lookup (lit "retry_after") ps = Some (JInt n) -> (0 <= n)%Z ->
  fetch u s = (inr (FallThrough u), logged (ESleep (inject_Z n)) s1).
Proof.
  intros H Hl Hn. unfold fetch, bind, try. rewrite H.
  assert (Hne : truthy (JDict ps) = true).
  { destruct ps; [discriminate Hl | reflexivity]. }
  rewrite Hne. unfold lift, contains, getitem, seconds. rewrite Hl.
  unfold sleep. rewrite (Qle_bool_inject n Hn). reflexivity.
Qed.

Lemma last_opt_nonempty {A} (l : list A) (x : A) :
  last_opt l = Some x -> is_empty l = false.
Proof. destruct l; [discriminate | reflexivity]. Qed.

(** A pass whose fetch returns a non-empty list of updates, the last one
    with an integer identifier [i]. *)
Lemma serve_body_batch kwargs u s s1 batch l i :
  getUpdates s = (inr (JList batch), s1) ->
  last_opt batch = Some l -> getitem l (lit "update_id") = inr (JInt i) ->
  serve_body kwargs u s
  = match dispatch kwargs batch (with_offset (JInt (i + 1)) s1) with
    | (inl e, s2) => (inl e, s2)
    | (inr _, s2) => (inr (Some (JList batch)), logged (ESleep (2 # 10)) s2)
    end.
Proof.
  intros H Hl Hi. unfold serve_body, bind. rewrite (fetch_returns u s _ s1 H).
  unfold process, bind, lift. cbn [truthy]. rewrite (last_opt_nonempty _ _ Hl).
  cbn [negb getitem_last]. unfold index_last. rewrite Hl, Hi.
  cbn [add1 set_offset iter].
  change (mkState _ _ _ _) with (with_offset (JInt (i + 1)) s1).
  destruct (dispatch kwargs batch _) as [[e|[]] s2]; reflexivity.
Qed.

Lemma dispatch_items_app kwargs its1 its2 s :
  dispatch_items kwargs (its1 ++ its2) s
  = match dispatch_items kwargs its1 s with
    | (inl e, s1) => (inl e, s1)
    | (inr _, s1) => dispatch_items kwargs its2 s1
    end.
Proof.
  revert s. induction its1 as [|[k v] its1 IH]; intros s; [reflexivity|].
  cbn [app dispatch_items]. unfold bind.
  destruct ((if str_eqb k (lit "update_id") then ret tt
             else match lookup k kwargs with
                  | Some f => invoke k f v | None => ret tt end) s)
    as [[e|[]] s1]; [reflexivity|]. apply IH.
Qed.

Lemma dispatch_app kwargs upds1 upds2 s :
  dispatch kwargs (upds1 ++ upds2) s
  = match dispatch kwargs upds1 s with
    | (inl e, s1) => (inl e, s1)
    | (inr _, s1) => dispatch kwargs upds2 s1
    end.
Proof.
  revert s. induction upds1 as [|u upds1 IH]; intros s; [reflexivity|].
  cbn [app dispatch]. unfold bind, lift.
  destruct (items u) as [e|its]; [reflexivity|].
  destruct (dispatch_items kwargs its s) as [[e|[]] s1]; [reflexivity|].
  apply IH.
Qed.

Lemma keeps_offset_dispatch_items kwargs its :
  callbacks_keep_offset kwargs -> keeps_offset (dispatch_items kwargs its).
Proof.
  intros Hk. induction its as [|[k v] its IH]; intros s; [reflexivity|].
  cbn [dispatch_items]. unfold bind.
  destruct (str_eqb k (lit "update_id")).
  - apply IH.
  - destruct (lookup k kwargs) as [f|] eqn:E; [|apply IH].
    unfold invoke, bind, emit. specialize (Hk k f v E (logged (ECall k v) s)).
    unfold logged in Hk.
    destruct (f v _) as [[e|[]] s1]; simpl in *; [exact Hk|].
    rewrite IH. exact Hk.
Qed.

Lemma keeps_offset_dispatch kwargs upds :
  callbacks_keep_offset kwargs -> keeps_offset (dispatch kwargs upds).
Proof.
  intros Hk. induction upds as [|u upds IH]; intros s; [reflexivity|].
  cbn [dispatch]. unfold bind, lift.
  destruct (items u) as [e|its]; [reflexivity|].
  pose proof (keeps_offset_dispatch_items kwargs its Hk s) as Hi.
  destruct (dispatch_items kwargs its s) as [[e|[]] s1]; simpl in *;
    [exact Hi|].
  rewrite IH. exact Hi.
Qed.

(* ================================================================== *)
(** ** Rate limiting (C1) *)
(* ================================================================== *)

(** C1 (the code departs from the claim). When the fetch fails with a
    [BotAPIFailed] whose parameters carry [retry_after = n], the handler
    sleeps [n] and, having no [continue], falls through to
    [if not updates:]. In the first pass [updates] is unbound and
    [UnboundLocalError] leaves [serve]; in a later pass the batch of an
    earlier pass is processed a second time. *)
Theorem serve_rate_limit_falls_through kwargs s r dsc code ps n s1 :
  getUpdates s = (inl (BotAPIFailed r dsc code (JDict ps)), s1) ->
  lookup (lit "retry_after") ps = Some (JInt n) -> (0 <= n)%Z ->
  (run (self s) = true ->
   forall fuel,
     serve kwargs (S fuel) s
     = (Raised UnboundLocalError, logged (ESleep (inject_Z n)) s1)) /\
  (forall u,
     serve_body kwargs (Some u) s
     = (process kwargs (Some u) ;;; ret (Some u))%M
         (logged (ESleep (inject_Z n)) s1)).
Proof.
  intros H Hl Hn. split.
  - intros Hrun fuel. unfold serve. cbn [serve_loop]. rewrite Hrun.
    unfold serve_body, bind.
    now rewrite (fetch_rate_limited None s r dsc code ps n s1 H Hl Hn).
  - intros u. unfold serve_body. unfold bind at 1.
    now rewrite (fetch_rate_limited (Some u) s r dsc code ps n s1 H Hl Hn).
Qed.

Lemma serve_rate_limit_falls_through_witness :
  let s := start bot [Decoded (too_many_requests 5)] in
  serve [(lit "message", noop)] 3 s
  = (Raised UnboundLocalError, logged (ESleep (inject_Z 5)) (polled s)).
Proof.
  intros s.
  refine (proj1 (serve_rate_limit_falls_through
                   [(lit "message", noop)] s (too_many_requests 5)
                   (JStr (lit "Too Many Requests")) (JInt 429)
                   [(lit "retry_after", JInt 5)] 5 (polled s)
                   eq_refl eq_refl _) eq_refl 2%nat).
  lia.
Defined.

(** The second pass of this run fails with "retry after 5" and calls the
    callback again on both updates of the first pass. *)
Example serve_redispatches_stale_batch :
  let m1 := text_message "/pkgver gcc" in
  let m2 := text_message "/search vim" in
  let batch := JList [update 5 (lit "message") m1; update 7 (lit "message") m2] in
  let s := start bot [Decoded (ok_body batch); Decoded (too_many_requests 5)] in
  let poll o := EPost (lit "123:abc") (lit "getUpdates")
                      [(lit "offset", o); (lit "timeout", JInt 30)] 45 in
  log (snd (serve [(lit "message", noop)] 2 s))
  = [poll JNull;
     ECall (lit "message") m1; ECall (lit "message") m2; ESleep (2 # 10);
     poll (JInt 8); ESleep (inject_Z 5);
     ECall (lit "message") m1; ECall (lit "message") m2; ESleep (2 # 10)].
Proof. reflexivity. Qed.

(* ================================================================== *)
(** ** Empty batches (C9) *)
(* ================================================================== *)

(** C9. A pass whose fetch returns an empty batch ends in the state the
    fetch left: the client (cursor, run-state) is as before the pass, the
    only events are HTTP attempts and the whole-second delays between
    them, so no callback is called and nothing is slept after the fetch,
    and the loop goes on to its next test. *)
Theorem serve_empty_batch kwargs u s s1 :
  getUpdates s = (inr (JList []), s1) ->
  serve_body kwargs u s = (inr (Some (JList [])), s1) /\
  self s1 = self s /\
  (exists evs, log s1 = log s ++ evs /\ Forall attempt_event evs) /\
  (run (self s) = true ->
   forall fuel,
     serve_loop kwargs (S fuel) u s
     = serve_loop kwargs fuel (Some (JList [])) s1).
Proof.
  intros H.
  assert (E : serve_body kwargs u s = (inr (Some (JList [])), s1)).
  { unfold serve_body, bind. now rewrite (fetch_returns u s _ s1 H). }
  pose proof (keeps_client_bot_api (lit "getUpdates") (poll_params s) s) as Hk.
  rewrite <- getUpdates_eq, H in Hk. destruct Hk as (K1 & _ & _ & K4).
  split; [exact E|]. split; [exact K1|]. split; [exact K4|].
  intros Hrun fuel. cbn [serve_loop]. now rewrite Hrun, E.
Qed.

Lemma serve_empty_batch_witness :
  let s := start bot [Raises ConnectionError; Decoded (ok_body (JList []))] in
  let s1 := snd (getUpdates s) in
  serve_body [(lit "message", noop)] None s = (inr (Some (JList [])), s1) /\
  self s1 = self s /\
  log s1 = [EPost (lit "123:abc") (lit "getUpdates") (poll_params s) 45;
            ESleep (inject_Z 2);
            EPost (lit "123:abc") (lit "getUpdates") (poll_params s) 45].
Proof.
  intros s s1.
  destruct (serve_empty_batch [(lit "message", noop)] None s s1 eq_refl)
    as (E & K & _).
  split; [exact E|]. split; [exact K | reflexivity].
Defined.

(* ================================================================== *)
(** ** Dispatch of a batch (C8) *)
(* ================================================================== *)



(* ================================================================== *)
(** ** The cursor (C2) *)
(* ================================================================== *)

Lemma last_opt_snoc {A} (l : list A) (x : A) :
  last_opt l = Some x -> exists pre, l = pre ++ [x].
Proof.
  unfold last_opt. intros H. destruct (rev l) as [|y r] eqn:E; [discriminate|].
  injection H as ->. exists (rev r).
  rewrite <- (rev_involutive l), E. reflexivity.
Qed.

Lemma identifiers_app (a b : list json) :
  identifiers (a ++ b) = identifiers a ++ identifiers b.
Proof.
  induction a as [|x a IH]; [reflexivity|]. simpl.
  destruct (getitem x (lit "update_id")) as [e|[]]; rewrite IH; reflexivity.
Qed.

(** A pass whose fetch raises anything but [BotAPIFailed] logs it and
    leaves the client as it was. *)
Lemma serve_body_fetch_error kwargs u s e s1 :
  getUpdates s = (inl e, s1) ->
  is_BotAPIFailed e = false -> is_Exception e = true ->
  serve_body kwargs u s
  = (inr u, logged (ELogException (lit "Get updates failed.") e) s1) /\
  self s1 = self s.
Proof.
  intros He Hb Hx. split; [|exact (getUpdates_keeps_client s _ s1 He)].
  unfold serve_body, fetch, bind, try. rewrite He.
  destruct e; try discriminate; reflexivity.
Qed.

Lemma cursor_le_refl (a : json) : cursor_le a a.
Proof. destruct a; simpl; auto. lia. Qed.

Lemma cursor_le_trans (a b c : json) :
  cursor_le a b -> cursor_le b c -> cursor_le a c.
Proof. destruct a, b, c; simpl; try tauto. lia. Qed.

Lemma sorted_lt_snoc_max (l : list Z) (i : Z) :
  StronglySorted Z.lt (l ++ [i]) -> forall j, In j (l ++ [i]) -> (j <= i)%Z.
Proof.
  induction l as [|a l IH]; simpl; intros Hs j Hj.
  - destruct Hj as [<-|[]]. lia.
  - apply StronglySorted_inv in Hs as [Hs Ha]. destruct Hj as [Hj|Hj].
    + subst j. rewrite Forall_forall in Ha.
      assert (a < i)%Z by (apply Ha; apply in_or_app; right; now left). lia.
    + now apply IH.
Qed.

(** The last update of a non-empty batch of identified updates carries
    the greatest identifier when the identifiers increase. *)
Lemma last_identifier_max (batch : list json) :
  batch <> [] -> Forall has_identifier batch ->
  StronglySorted Z.lt (identifiers batch) ->
  exists l i, last_opt batch = Some l /\
              getitem l (lit "update_id") = inr (JInt i) /\
              In i (identifiers batch) /\
              forall j, In j (identifiers batch) -> (j <= i)%Z.
Proof.
  intros Hne Hid Hs.
  assert (Hl : exists l, last_opt batch = Some l).
  { unfold last_opt. destruct (rev batch) as [|x r] eqn:E; [|eauto].
    exfalso. apply Hne. rewrite <- (rev_involutive batch), E. reflexivity. }
  destruct Hl as [l Hl]. destruct (last_opt_snoc _ _ Hl) as [pre Hpre].
  assert (Hin : In l batch) by (rewrite Hpre; apply in_or_app; right; now left).
  rewrite Forall_forall in Hid. destruct (Hid l Hin) as [i Hi].
  exists l, i. split; [exact Hl|]. split; [exact Hi|].
  rewrite Hpre, identifiers_app in *. simpl in *. rewrite Hi in *.
  split; [apply in_or_app; right; now left|].
  now apply sorted_lt_snoc_max.
Qed.

Lemma cursor_of_updates_frame u s s' :
  offset (self s') = offset (self s) ->
  cursor_of_updates u s -> cursor_of_updates u s'.
Proof.
  intros E. destruct u as [r|]; simpl; [|auto].
  intros [H|(batch & l & i & H1 & H2 & H3 & H4)]; [now left|].
  right. exists batch, l, i. rewrite E. auto.
Qed.

(** What [fetch] does when the call of [getUpdates] raises: the client
    is left alone, and the local [updates] is not bound anew. *)
Lemma fetch_after_error u s e s1 :
  getUpdates s = (inl e, s1) ->
  exists s2,
    self s2 = self s /\
    (fetch u s = (inr Continue, s2) \/
     fetch u s = (inr (FallThrough u), s2) \/
     exists e', fetch u s = (inl e', s2)).
Proof.
  intros H. pose proof (getUpdates_keeps_client s _ s1 H) as K.
  assert (Raise : forall e' : exn,
             exists s2, self s2 = self s /\
               ((inl e' : result flow, s1) = (inr Continue, s2) \/
                (inl e' : result flow, s1) = (inr (FallThrough u), s2) \/
                exists e'', (inl e' : result flow, s1) = (inl e'', s2))).
  { intros e'. exists s1. split; [exact K|]. right. right. now exists e'. }
  assert (Fall : forall s2, self s2 = self s1 ->
             exists s3, self s3 = self s /\
               ((inr (FallThrough u) : result flow, s2) = (inr Continue, s3) \/
                (inr (FallThrough u) : result flow, s2)
                = (inr (FallThrough u), s3) \/
                exists e'', (inr (FallThrough u) : result flow, s2)
                            = (inl e'', s3))).
  { intros s2 E. exists s2. split; [now rewrite E|]. right. now left. }
  unfold fetch, bind, try. rewrite H.
  destruct e as [r d c parameters| | | | | | |name|name];
    try (simpl; eexists; (split; [|left; reflexivity]); exact K);
    try (simpl; apply Raise).
  destruct (truthy parameters); unfold ret, lift; [|now apply Fall].
  destruct (contains (lit "retry_after") parameters) as [e'|[|]];
    [apply Raise| |now apply Fall].
  destruct (getitem parameters (lit "retry_after")) as [e'|n];
    [apply Raise|].
  destruct (seconds n) as [e'|d0]; [apply Raise|].
  unfold sleep. destruct (Qle_bool 0 d0); [|apply Raise].
  simpl. now apply Fall.
Qed.

(** Processing the batch the cursor was last set from sets the cursor to
    the value it has. *)
Lemma process_keeps_cursor kwargs u s :
  callbacks_keep_offset kwargs -> cursor_of_updates u s ->
  offset (self (snd (process kwargs u s))) = offset (self s).
Proof.
  intros Hk Hu. destruct u as [r|]; [|reflexivity].
  destruct Hu as [Hf|(batch & l & i & -> & Hl & Hi & Ho)].
  - unfold process. now rewrite Hf.
  - unfold process. cbn [truthy]. rewrite (last_opt_nonempty _ _ Hl).
    cbn [negb getitem_last]. unfold index_last, bind, lift. rewrite Hl, Hi.
    cbn [add1 set_offset iter].
    change (mkState _ _ _ _) with (with_offset (JInt (i + 1)) s).
    pose proof (keeps_offset_dispatch kwargs batch Hk
                  (with_offset (JInt (i + 1)) s)) as Hd.
    destruct (dispatch kwargs batch _) as [[e|[]] s2]; simpl in *;
      now rewrite Hd, Ho.
Qed.

(** One pass of the loop and the cursor. *)
Lemma serve_body_cursor kwargs u s :
  callbacks_keep_offset kwargs -> cursor_of_updates u s ->
  (forall r s1, getUpdates s = (inr r, s1) ->
                ascending_from (offset (self s)) r) ->
  cursor_le (offset (self s)) (offset (self (snd (serve_body kwargs u s)))) /\
  (forall u' s', serve_body kwargs u s = (inr u', s') ->
                 cursor_of_updates u' s') /\
  (forall e s1, getUpdates s = (inl e, s1) ->
                offset (self (snd (serve_body kwargs u s))) = offset (self s)).
Proof.
  intros Hk Hu Hc. destruct (getUpdates s) as [[e|r] s1] eqn:G.
  - destruct (fetch_after_error u s e s1 G) as (s2 & K & [F|[F|[e' F]]]).
    + assert (E : serve_body kwargs u s = (inr u, s2))
        by (unfold serve_body, bind; now rewrite F).
      rewrite E. simpl. rewrite K. split; [apply cursor_le_refl|].
      split; [|reflexivity].
      intros u' s' [= <- <-].
      apply (cursor_of_updates_frame u s s2); [now rewrite K | exact Hu].
    + assert (Hu2 : cursor_of_updates u s2)
        by (apply (cursor_of_updates_frame u s s2); [now rewrite K | exact Hu]).
      pose proof (process_keeps_cursor kwargs u s2 Hk Hu2) as P.
      assert (O : offset (self (snd (serve_body kwargs u s))) = offset (self s)).
      { unfold serve_body, bind. rewrite F.
        destruct (process kwargs u s2) as [[e'|[]] s3]; simpl in *;
          now rewrite P, K. }
      rewrite O. split; [apply cursor_le_refl|]. split; [|reflexivity].
      intros u' s' E. unfold serve_body, bind in E. rewrite F in E.
      destruct (process kwargs u s2) as [[e'|[]] s3]; [discriminate E|].
      injection E as <- <-. simpl in P.
      apply (cursor_of_updates_frame u s2 s3); [exact P | exact Hu2].
    + assert (E : serve_body kwargs u s = (inl e', s2))
        by (unfold serve_body, bind; now rewrite F).
      rewrite E. simpl. rewrite K. split; [apply cursor_le_refl|].
      split; [discriminate | reflexivity].
  - pose proof (getUpdates_keeps_client s _ s1 G) as K.
    destruct (Hc r s1 eq_refl) as (batch & -> & Hid & Hs & Hb).
    destruct batch as [|x batch].
    + assert (E : serve_body kwargs u s = (inr (Some (JList [])), s1)).
      { unfold serve_body, bind. now rewrite (fetch_returns u s _ s1 G). }
      rewrite E. simpl. rewrite K. split; [apply cursor_le_refl|].
      split; [|discriminate]. intros u' s' [= <- <-]. now left.
    + destruct (last_identifier_max (x :: batch) ltac:(discriminate) Hid Hs)
        as (l & i & Hl & Hi & Hin & Hmax).
      pose proof (serve_body_batch kwargs u s s1 (x :: batch) l i G Hl Hi) as E.
      pose proof (keeps_offset_dispatch kwargs (x :: batch) Hk
                    (with_offset (JInt (i + 1)) s1)) as Hd.
      assert (O : offset (self (snd (serve_body kwargs u s))) = JInt (i + 1)).
      { rewrite E. destruct (dispatch kwargs (x :: batch) _) as [[e|[]] s2];
          exact Hd. }
      split; [|split; [|discriminate]].
      * rewrite O. destruct (offset (self s)) as [| | c | | |] eqn:Ec;
          simpl; auto.
        specialize (Hb c eq_refl). rewrite Forall_forall in Hb.
        specialize (Hb i Hin). lia.
      * intros u' s' E'. rewrite E' in O. simpl in O.
        rewrite E in E'.
        destruct (dispatch kwargs (x :: batch) _) as [[e|[]] s2];
          [discriminate E'|]. injection E' as <- _.
        right. exists (x :: batch), l, i. auto.
Qed.

Lemma honoured_le kwargs m fuel u s :
  (m <= fuel)%nat -> honoured kwargs fuel u s -> honoured kwargs m u s.
Proof.
  revert fuel u s. induction m as [|m IH]; intros fuel u s Hle H; [exact I|].
  destruct fuel as [|fuel]; [lia|]. cbn [honoured] in *.
  destruct (run (self s)); [|exact I]. destruct H as [Hc H].
  split; [exact Hc|].
  destruct (serve_body kwargs u s) as [[e|u'] s']; [exact I|].
  apply (IH fuel); [lia | exact H].
Qed.

(** The cursor from one pass of a run to the next. *)
Lemma serve_loop_next kwargs n u s :
  callbacks_keep_offset kwargs -> cursor_of_updates u s ->
  honoured kwargs (S n) u s ->
  cursor_le (offset (self (snd (serve_loop kwargs n u s))))
            (offset (self (snd (serve_loop kwargs (S n) u s)))) /\
  (fst (serve_loop kwargs n u s) = OutOfFuel ->
   forall e s1,
     getUpdates (snd (serve_loop kwargs n u s)) = (inl e, s1) ->
     offset (self (snd (serve_loop kwargs (S n) u s)))
     = offset (self (snd (serve_loop kwargs n u s)))).
Proof.
  intros Hk. revert u s. induction n as [|n IH]; intros u s Hu Hh.
  - cbn [serve_loop honoured] in *.
    destruct (run (self s)); [|split; [apply cursor_le_refl | reflexivity]].
    destruct Hh as [Hc _].
    destruct (serve_body_cursor kwargs u s Hk Hu Hc) as (L & _ & F).
    destruct (serve_body kwargs u s) as [[e|u'] s']; simpl in *;
      (split; [exact L | intros _ e0 s1 G; exact (F e0 s1 G)]).
  - cbn [honoured] in Hh.
    change (serve_loop kwargs (S (S n)) u s)
      with (if run (self s) then
              match serve_body kwargs u s with
              | (inl e, s') => (Raised e, s')
              | (inr u', s') => serve_loop kwargs (S n) u' s'
              end
            else (Returned, s)).
    change (serve_loop kwargs (S n) u s)
      with (if run (self s) then
              match serve_body kwargs u s with
              | (inl e, s') => (Raised e, s')
              | (inr u', s') => serve_loop kwargs n u' s'
              end
            else (Returned, s)).
    destruct (run (self s));
      [|split; [apply cursor_le_refl | discriminate]].
    destruct Hh as [Hc Hh].
    destruct (serve_body_cursor kwargs u s Hk Hu Hc) as (_ & Hu' & _).
    destruct (serve_body kwargs u s) as [[e|u'] s'];
      [split; [apply cursor_le_refl | discriminate]|].
    exact (IH u' s' (Hu' u' s' eq_refl) Hh).
Qed.

(** C2. In a run of [serve] in which the service answers each fetch with
    updates of strictly increasing identifiers, none below the offset
    sent, and no callback assigns the cursor: right after a non-empty
    batch is fetched the callbacks are dispatched from a state whose
    cursor is one past the greatest identifier of the batch, and the
    cursor is there after the pass however the callbacks end; from any
    pass of the run to any later one the cursor does not decrease; and a
    pass whose fetch raises leaves the cursor as it was. *)
Theorem serve_cursor_monotone kwargs :
  callbacks_keep_offset kwargs ->
  (forall u s s1 batch,
      getUpdates s = (inr (JList batch), s1) -> batch <> [] ->
      Forall has_identifier batch ->
      StronglySorted Z.lt (identifiers batch) ->
      exists i,
        In i (identifiers batch) /\
        (forall j, In j (identifiers batch) -> (j <= i)%Z) /\
        serve_body kwargs u s
        = (dispatch kwargs batch ;;;
           sleep (2 # 10) ;;;
           ret (Some (JList batch)))%M (with_offset (JInt (i + 1)) s1) /\
        offset (self (snd (serve_body kwargs u s))) = JInt (i + 1)) /\
  (forall fuel s,
      honoured kwargs fuel None s ->
      forall n m, (n <= m <= fuel)%nat ->
        cursor_le (offset (self (snd (serve kwargs n s))))
                  (offset (self (snd (serve kwargs m s))))) /\
  (forall fuel s,
      honoured kwargs fuel None s ->
      forall n, (n < fuel)%nat ->
        fst (serve kwargs n s) = OutOfFuel ->
        forall e s1,
          getUpdates (snd (serve kwargs n s)) = (inl e, s1) ->
          offset (self (snd (serve kwargs (S n) s)))
          = offset (self (snd (serve kwargs n s)))).
Proof.
  intros Hk. split; [|split].
  - intros u s s1 batch G Hne Hid Hs.
    destruct (last_identifier_max batch Hne Hid Hs)
      as (l & i & Hl & Hi & Hin & Hmax).
    exists i. split; [exact Hin|]. split; [exact Hmax|].
    pose proof (serve_body_batch kwargs u s s1 batch l i G Hl Hi) as E.
    pose proof (keeps_offset_dispatch kwargs batch Hk
                  (with_offset (JInt (i + 1)) s1)) as Hd.
    split.
    + rewrite E. unfold bind, ret.
      destruct (dispatch kwargs batch _) as [[e|[]] s2]; reflexivity.
    + rewrite E. destruct (dispatch kwargs batch _) as [[e|[]] s2]; exact Hd.
  - intros fuel s Hh n m [Hnm Hm]. induction Hnm as [|m Hnm IH].
    + apply cursor_le_refl.
    + apply (cursor_le_trans _ (offset (self (snd (serve kwargs m s))))).
      * apply IH. lia.
      * apply (serve_loop_next kwargs m None s Hk I).
        apply (honoured_le kwargs (S m) fuel); [lia | exact Hh].
  - intros fuel s Hh n Hn.
    apply (serve_loop_next kwargs n None s Hk I).
    apply (honoured_le kwargs (S n) fuel); [lia | exact Hh].
Qed.

Lemma noop_keeps_offset : callbacks_keep_offset [(lit "message", noop)].
Proof.
  intros k f v. cbn [lookup].
  destruct (str_eqb (lit "message") k); [|discriminate].
  intros [= <-] s. reflexivity.
Qed.

(** Closes [ascending_from c r] for a concrete cursor and answer. *)
Ltac ascending :=
  unfold ascending_from; eexists; split; [reflexivity|];
  split; [repeat constructor; eexists; reflexivity|];
  split; [cbn; repeat constructor; lia|];
  let c := fresh "c" in let Hc := fresh "Hc" in
  intros c Hc; vm_compute in Hc;
  first [discriminate Hc
        | injection Hc as <-; cbn; repeat constructor; lia].

(** Closes [honoured kwargs fuel updates s] for a concrete run. *)
Ltac honour :=
  cbn [honoured];
  repeat match goal with
         | |- context [run (self ?x)] =>
             change (run (self x)) with true; cbv iota
         | |- _ /\ _ => split
         | |- forall r s1, _ = _ -> _ =>
             let r := fresh "r" in let s1 := fresh "s1" in
             let G := fresh "G" in
             intros r s1 G; vm_compute in G;
             first [discriminate G | injection G as <- _; ascending]
         | |- match serve_body ?k ?u ?x with _ => _ end =>
             let v := eval vm_compute in (serve_body k u x) in
             change (serve_body k u x) with v; cbv iota
         end;
  try exact I.

Lemma serve_cursor_monotone_witness :
  let upd i := update i (lit "message") (text_message "/start") in
  let s := start bot [Decoded (ok_body (JList [upd 5%Z; upd 7%Z]));
                      Raises ConnectionError; Raises ConnectionError;
                      Decoded (ok_body (JList [upd 9%Z]))] in
  let cursor n := offset (self (snd (serve [(lit "message", noop)] n s))) in
  cursor 1%nat = JInt 8 /\ cursor 2%nat = JInt 8 /\ cursor 3%nat = JInt 10 /\
  cursor_le (cursor 1%nat) (cursor 3%nat).
Proof.
  intros upd s cursor.
  split; [reflexivity|]. split; [reflexivity|]. split; [reflexivity|].
  refine (proj1 (proj2 (serve_cursor_monotone [(lit "message", noop)]
                          noop_keeps_offset)) 3%nat s _ 1%nat 3%nat _).
  - unfold s, upd. honour.
  - lia.
Defined.

(* ================================================================== *)
(** ** A callback that raises (C10) *)
(* ================================================================== *)

(** C10. When, in the dispatch of a batch fetched in any pass of the
    loop (whatever the local [updates] holds from earlier passes), the
    callback of a payload raises [e], [serve] ends with [e] in the state
    the callback left: the payloads and updates after it are not
    dispatched. The
    cursor, set before the dispatch, stays one past the last identifier
    of the batch when callbacks do not assign it, and the first HTTP
    attempt of the next [getUpdates] sends that cursor as [offset]. *)
Theorem serve_callback_raises
        kwargs fuel u s s1 pre ipre k v ipost post l i f e s2 s3 s4 :
  let batch := pre ++ JDict (ipre ++ (k, v) :: ipost) :: post in
  run (self s) = true ->
  getUpdates s = (inr (JList batch), s1) ->
  last_opt batch = Some l -> getitem l (lit "update_id") = inr (JInt i) ->
  dispatch kwargs pre (with_offset (JInt (i + 1)) s1) = (inr tt, s2) ->
  dispatch_items kwargs ipre s2 = (inr tt, s3) ->
  k <> lit "update_id" -> lookup k kwargs = Some f ->
  f v (logged (ECall k v) s3) = (inl e, s4) ->
  serve_loop kwargs (S fuel) u s = (Raised e, s4) /\
  (callbacks_keep_offset kwargs ->
   offset (self s4) = JInt (i + 1) /\
   exists rest,
     log (snd (getUpdates s4))
     = log s4 ++ EPost (token (self s4)) (lit "getUpdates")
                       [(lit "offset", JInt (i + 1)); (lit "timeout", JInt 30)]
                       45 :: rest).
Proof.
  intros batch Hrun H Hl Hi Hpre Hipre Hk Hf He.
  assert (D : dispatch kwargs batch (with_offset (JInt (i + 1)) s1)
              = (inl e, s4)).
  { unfold batch. rewrite dispatch_app, Hpre. cbn [dispatch items].
    unfold bind at 1, lift. unfold bind at 1.
    rewrite dispatch_items_app, Hipre. cbn [dispatch_items].
    rewrite (str_eqb_neq _ _ Hk), Hf. unfold bind at 1.
    unfold invoke, bind, emit.
    change (mkState _ _ _ _) with (logged (ECall k v) s3). now rewrite He. }
  assert (E : serve_body kwargs u s = (inl e, s4)).
  { rewrite (serve_body_batch kwargs u s s1 batch l i H Hl Hi).
    now rewrite D. }
  split.
  - cbn [serve_loop]. now rewrite Hrun, E.
  - intros Hko.
    pose proof (keeps_offset_dispatch kwargs batch Hko
                  (with_offset (JInt (i + 1)) s1)) as Ho.
    rewrite D in Ho. simpl in Ho. split; [exact Ho|].
    destruct (bot_api_posts (lit "getUpdates") (poll_params s4) s4)
      as [_ [rest Hrest]].
    exists rest. rewrite getUpdates_eq, Hrest. unfold poll_params.
    now rewrite Ho.
Qed.

Lemma failing_keeps_offset : callbacks_keep_offset [(lit "message", failing)].
Proof.
  intros k f v. cbn [lookup].
  destruct (str_eqb (lit "message") k); [|discriminate].
  intros [= <-] s. reflexivity.
Qed.

Lemma serve_callback_raises_witness :
  let m1 := text_message "/pkgver gcc" in
  let m2 := text_message "/search vim" in
  let m3 := text_message "/start" in
  let first := [update 3 (lit "message") m3] in
  let batch := [update 5 (lit "message") m1; update 7 (lit "message") m2] in
  let s := mkState (mkClient (lit "123:abc") (lit "bot") (JInt 4) true)
                   (script [Decoded (ok_body (JList first));
                            Decoded (ok_body (JList batch))]) 1 [] in
  let s4 := logged (ECall (lit "message") m1) (with_offset (JInt 8) (polled s)) in
  serve_loop [(lit "message", failing)] 3 (Some (JList first)) s
  = (Raised (OtherException (lit "boom")), s4) /\
  offset (self s4) = JInt 8.
Proof.
  intros m1 m2 m3 first batch s s4.
  assert (Hk : lit "message" <> lit "update_id") by discriminate.
  destruct (serve_callback_raises [(lit "message", failing)] 2
              (Some (JList first)) s (polled s)
              [] [(lit "update_id", JInt 5)]
              (lit "message") m1 [] [update 7 (lit "message") m2]
              (update 7 (lit "message") m2) 7 failing
              (OtherException (lit "boom"))
              (with_offset (JInt 8) (polled s))
              (with_offset (JInt 8) (polled s))
              s4
              eq_refl eq_refl eq_refl eq_refl
              eq_refl eq_refl Hk eq_refl eq_refl)
    as (E & O).
  split; [exact E | exact (proj1 (O failing_keeps_offset))].
Defined.

(* ================================================================== *)
(** ** Stopping the loop (C4) *)
(* ================================================================== *)

(** C4, as stated, fails: the client has no [requestStop] of its own, so
    the name reaches [__getattr__] and the call is an HTTP attempt on the
    remote method [requestStop], after which run-state is still true. *)
Lemma requestStop_is_a_remote_call :
  let s := start bot [Decoded not_found] in
  has_own_attribute (lit "requestStop") = false /\
  run (self (snd (__getattr__ (lit "requestStop") [] s))) = true /\
  log (snd (__getattr__ (lit "requestStop") [] s))
  = [EPost (lit "123:abc") (lit "requestStop") [] 45].
Proof. repeat split. Qed.

(** C4, amended. Every name the client does not define, [requestStop]
    among them, is a remote call: it makes an HTTP attempt and changes no
    attribute of the client. Run-state is the attribute [run]: when it is
    false [serve] returns at once, without a fetch, and when a pass ends
    with it false the loop returns after that pass. *)
Theorem serve_stops_on_run_false kwargs :
  (forall name params s,
      __getattr__ name params s = bot_api name params s /\
      self (snd (__getattr__ name params s)) = self s /\
      (calls s < calls (snd (__getattr__ name params s)))%nat) /\
  has_own_attribute (lit "requestStop") = false /\
  (forall fuel u s,
      run (self s) = false -> serve_loop kwargs (S fuel) u s = (Returned, s)) /\
  (forall fuel u s u' s',
      run (self s) = true -> serve_body kwargs u s = (inr u', s') ->
      run (self s') = false ->
      serve_loop kwargs (S (S fuel)) u s = (Returned, s')).
Proof.
  split; [|split; [reflexivity|split]].
  - intros name params s. split; [reflexivity|]. unfold __getattr__. split.
    + apply (keeps_client_bot_api name params s).
    + apply (bot_api_posts name params s).
  - intros fuel u s Hrun. cbn [serve_loop]. now rewrite Hrun.
  - intros fuel u s u' s' Hrun E Hstop.
    cbn [serve_loop]. now rewrite Hrun, E, Hstop.
Qed.

Lemma serve_stops_on_run_false_witness :
  let m1 := text_message "/pkgver gcc" in
  let m2 := text_message "/search vim" in
  let batch := [update 5 (lit "message") m1; update 7 (lit "message") m2] in
  let s := start bot [Decoded (ok_body (JList batch))] in
  fst (serve [(lit "message", stopper)] 2 s) = Returned /\
  log (snd (serve [(lit "message", stopper)] 2 s))
  = [EPost (lit "123:abc") (lit "getUpdates") (poll_params s) 45;
     ECall (lit "message") m1; ECall (lit "message") m2; ESleep (2 # 10)].
Proof.
  intros m1 m2 batch s.
  pose proof (proj2 (proj2 (proj2 (serve_stops_on_run_false
                                     [(lit "message", stopper)])))
                    0%nat None s _ _ eq_refl eq_refl eq_refl) as E.
  unfold serve. rewrite E. split; reflexivity.
Defined.

(* ================================================================== *)
(** ** Markdown escaping *)
(* ================================================================== *)

Lemma md_special_not_backslash (c : char) :
  md_special c = true -> c <> BACKSLASH.
Proof. intros H ->. discriminate H. Qed.

(** X1. [mdescape] loses nothing: two texts with the same escaped form
    are the same text. *)
Theorem mdescape_injective (a b : str) :
  mdescape a = mdescape b -> a = b.
Proof.
  revert b. induction a as [|c a IH]; intros [|d b] H.
  - reflexivity.
  - simpl in H. destruct (md_special d); discriminate H.
  - simpl in H. destruct (md_special c); discriminate H.
  - simpl in H.
    destruct (md_special c) eqn:Ec, (md_special d) eqn:Ed.
    + injection H as -> H. f_equal. now apply IH.
    + injection H as <- H. exfalso.
      destruct b as [|x b]; [discriminate H|]. simpl in H.
      destruct (md_special x) eqn:Ex; injection H as Hx _.
      * now apply (md_special_not_backslash c Ec).
      * subst x. congruence.
    + injection H as -> H. exfalso.
      destruct a as [|x a]; [discriminate H|]. simpl in H.
      destruct (md_special x) eqn:Ex; injection H as Hx _.
      * now apply (md_special_not_backslash d Ed).
      * subst x. congruence.
    + injection H as -> H. f_equal. now apply IH.
Qed.

Lemma mdescape_injective_witness :
  lit "[gcc]" = lit "[gcc]".
Proof. exact (mdescape_injective (lit "[gcc]") (lit "[gcc]") eq_refl). Defined.

(** X2. In the result of [mdescape] every '[', '*' and '_' comes right
    after a backslash. *)
Theorem mdescape_escapes_every_special (s pre post : str) (c : char) :
  mdescape s = pre ++ c :: post -> md_special c = true ->
  exists pre', pre = pre' ++ [BACKSLASH].
Proof.
  revert pre. induction s as [|x s IH]; intros pre H Hc.
  - destruct pre; discriminate H.
  - simpl in H. destruct (md_special x) eqn:Ex.
    + destruct pre as [|p0 [|p1 pre]].
      * injection H as <- _. discriminate Hc.
      * injection H as <- _ _. now exists [].
      * injection H as <- <- H. destruct (IH pre H Hc) as [pre' ->].
        now exists (BACKSLASH :: x :: pre').
    + destruct pre as [|p0 pre].
      * injection H as -> _. congruence.
      * injection H as <- H. destruct (IH pre H Hc) as [pre' ->].
        now exists (x :: pre').
Qed.

Lemma mdescape_escapes_every_special_witness :
  exists pre', lit "gcc\" = pre' ++ [BACKSLASH].
Proof.
  exact (mdescape_escapes_every_special (lit "gcc_8") (lit "gcc\") (lit "8")
           95%N eq_refl eq_refl).
Defined.

Lemma mdescape_length (s : str) :
  List.length (mdescape s)
  = (List.length s + List.length (filter md_special s))%nat.
Proof.
  induction s as [|c s IH]; [reflexivity|]. simpl.
  destruct (md_special c); simpl; rewrite IH; lia.
Qed.

(** X3. [mdescape] returns a text unchanged exactly when the text has no
    '[', '*' or '_'; in general the result is longer by the number of
    these characters. *)
Theorem mdescape_plain (s : str) :
  List.length (mdescape s)
  = (List.length s + List.length (filter md_special s))%nat /\
  (mdescape s = s <-> forall c, In c s -> md_special c = false).
Proof.
  split; [apply mdescape_length|]. split.
  - intros H c Hc. pose proof (mdescape_length s) as L. rewrite H in L.
    assert (F : filter md_special s = []).
    { destruct (filter md_special s); [reflexivity | simpl in L; lia]. }
    destruct (md_special c) eqn:E; [|reflexivity].
    assert (Hin : In c (filter md_special s)) by (apply filter_In; now split).
    rewrite F in Hin. destruct Hin.
  - induction s as [|c s IH]; intros H; [reflexivity|]. simpl.
    rewrite (H c (or_introl eq_refl)). f_equal. apply IH.
    intros x Hx. apply H. now right.
Qed.

Lemma mdescape_plain_witness : mdescape (lit "gcc 8.2") = lit "gcc 8.2".
Proof.
  apply (proj2 (proj2 (mdescape_plain (lit "gcc 8.2")))).
  intros c Hc. vm_compute in Hc.
  repeat (destruct Hc as [<-|Hc]; [reflexivity|]). destruct Hc.
Defined.

(* ================================================================== *)
(** ** More on [parse_cmd] *)
(* ================================================================== *)

Lemma replace_no_old (old new : char) (s : str) :
  old <> new -> ~ In old (replace old new s).
Proof.
  intros Hne. induction s as [|c s IH]; simpl; [tauto|].
  unfold char_eqb. destruct (N.eqb_spec c old) as [->|Hc].
  - intros [H|H]; [now apply Hne | now apply IH].
  - intros [H|H]; [now apply Hc | now apply IH].
Qed.

(** The head token holds neither a space nor a non-breaking space. *)
Lemma head_token_no_space (text : str) :
  ~ In SPACE (head_token text) /\ ~ In NBSP (head_token text).
Proof.
  split.
  - unfold head_token, cmd_fields, split1.
    destruct (break SPACE _) as [h [r|]] eqn:E; simpl.
    + now apply break_some_inv in E as [_ E].
    + now apply break_none_inv in E as [_ E].
  - destruct (head_token_prefix text) as [r Hr]. intros Hi.
    apply (replace_no_old NBSP SPACE (strip text)); [discriminate|].
    rewrite Hr. apply in_or_app. now left.
Qed.

(** X4. [parse_cmd] returns both components or neither; a verb it
    returns is non-empty, holds no space of either kind, is what the
    head token has between the marker and the handle suffix, and comes
    with the remainder of the text. *)
Theorem parse_cmd_result_shape (me : client) (text : str)
        (r : option str * option str) :
  parse_cmd me text = inr r ->
  r = (None, None) \/
  exists verb sfx,
    r = (Some verb, Some (remainder text)) /\
    verb <> [] /\ ~ In SPACE verb /\ ~ In NBSP verb /\
    head_token text = SLASH :: verb ++ sfx /\
    (sfx = [] \/ sfx = AT :: username me).
Proof.
  intros H.
  destruct (head_token_no_space text) as [Hs Hn].
  assert (G : forall c0 rest sfx,
             rsplit1 AT (head_token text) = c0 :: rest ->
             head_token text = c0 ++ sfx ->
             (rest = [] /\ sfx = []) \/
             (exists h, rest = [h] /\ sfx = AT :: h) ->
             r = (None, None) \/
             exists verb sfx,
               r = (Some verb, Some (remainder text)) /\
               verb <> [] /\ ~ In SPACE verb /\ ~ In NBSP verb /\
               head_token text = SLASH :: verb ++ sfx /\
               (sfx = [] \/ sfx = AT :: username me)).
  { intros c0 rest sfx Hc Hh Hrest. destruct c0 as [|x [|y v]].
    - left. rewrite (parse_cmd_short me text [] rest Hc) in H;
        [congruence | simpl; lia].
    - left. rewrite (parse_cmd_short me text [x] rest Hc) in H;
        [congruence | simpl; lia].
    - destruct (N.eq_dec x SLASH) as [->|Hx].
      + assert (Hv : forall c, In c (y :: v) -> In c (head_token text)).
        { intros c Hc'. rewrite Hh. right. apply in_or_app. now left. }
        destruct Hrest as [[-> ->]|[h [-> ->]]].
        * right. exists (y :: v), [].
          rewrite (parse_cmd_accept me text (y :: v) [] Hc) in H;
            [|discriminate|now left].
          injection H as <-. repeat split; auto; try discriminate.
        * destruct (list_eq_dec N.eq_dec h (username me)) as [->|Hh'].
          -- right. exists (y :: v), (AT :: username me).
             rewrite (parse_cmd_accept me text (y :: v) [username me] Hc) in H;
               [|discriminate|now right].
             injection H as <-. repeat split; auto; try discriminate.
          -- left.
             rewrite (parse_cmd_mismatch me text (SLASH :: y :: v) h Hc Hh')
               in H. congruence.
      + left. rewrite (parse_cmd_nomarker me text (y :: v) x rest Hc Hx) in H.
        congruence. }
  destruct (rsplit1_shape AT (head_token text))
    as [[Hc _]|(c0 & h & Hc & Hh & _)].
  - apply (G _ _ [] Hc); [now rewrite app_nil_r | now left].
  - apply (G _ _ (AT :: h) Hc Hh). right. now exists h.
Qed.

Lemma parse_cmd_result_shape_witness :
  (Some (lit "search"), Some (lit "vim 8")) = (None, None) \/
  exists verb sfx,
    (Some (lit "search"), Some (lit "vim 8"))
    = (Some verb, Some (remainder (lit "/search@bot vim 8"))) /\
    verb <> [] /\ ~ In SPACE verb /\ ~ In NBSP verb /\
    head_token (lit "/search@bot vim 8") = SLASH :: verb ++ sfx /\
    (sfx = [] \/ sfx = AT :: username bot).
Proof.
  exact (parse_cmd_result_shape bot (lit "/search@bot vim 8")
           (Some (lit "search"), Some (lit "vim 8")) eq_refl).
Defined.

(** X5. A command without argument: when the trimmed, normalised text is
    just [/<verb>], or [/<verb>@<own handle>], the argument returned is
    the empty string. *)
Theorem parse_cmd_no_argument (me : client) (text verb sfx : str) :
  verb <> [] -> ~ In SPACE verb -> ~ In SPACE sfx ->
  (sfx = [] /\ ~ In AT verb) \/
  (sfx = AT :: username me /\ ~ In AT (username me)) ->
  replace NBSP SPACE (strip text) = SLASH :: verb ++ sfx ->
  parse_cmd me text = inr (Some verb, Some []).
Proof.
  intros Hv Hsv Hss Hsfx Hs.
  assert (Hf : cmd_fields text = [SLASH :: verb ++ sfx]).
  { unfold cmd_fields. rewrite Hs. apply split1_nosep.
    intros [Hi|Hi]; [discriminate Hi|].
    apply in_app_or in Hi as [Hi|Hi]; auto. }
  assert (Hh : head_token text = SLASH :: verb ++ sfx)
    by (unfold head_token; now rewrite Hf).
  assert (Hr : remainder text = [])
    by (unfold remainder; now rewrite Hf).
  rewrite <- Hr.
  destruct Hsfx as [[-> Hn]|[-> Hn]].
  - apply parse_cmd_accept with (sfx := []); [|exact Hv|now left].
    rewrite Hh, app_nil_r. apply rsplit1_nosep.
    intros [Hi|Hi]; [discriminate Hi|auto].
  - apply parse_cmd_accept with (sfx := [username me]); [|exact Hv|now right].
    rewrite Hh. now apply (rsplit1_app AT (SLASH :: verb) (username me) Hn).
Qed.

Lemma parse_cmd_no_argument_witness :
  parse_cmd bot (lit " /start@bot ") = inr (Some (lit "start"), Some []).
Proof.
  refine (parse_cmd_no_argument bot (lit " /start@bot ") (lit "start")
            (lit "@bot") _ _ _ _ eq_refl).
  - discriminate.
  - notin_lit.
  - notin_lit.
  - right. split; [reflexivity|]. notin_lit.
Defined.

Lemma lstrip_whitespace (ws : str) : whitespace ws -> lstrip ws = [].
Proof.
  induction 1 as [|c ws Hc _ IH]; [reflexivity|]. simpl. now rewrite Hc.
Qed.

Lemma lstrip_app_l (ws t : str) : whitespace ws -> lstrip (ws ++ t) = lstrip t.
Proof.
  induction 1 as [|c ws Hc _ IH]; [reflexivity|]. simpl. now rewrite Hc.
Qed.

Lemma lstrip_app_r (t ws : str) :
  whitespace ws ->
  lstrip (t ++ ws) = match lstrip t with [] => [] | _ => lstrip t ++ ws end.
Proof.
  intros Hw. induction t as [|c t IH]; simpl.
  - now apply lstrip_whitespace.
  - destruct (isspace c); [exact IH | reflexivity].
Qed.

Lemma rstrip_app_r (t ws : str) : whitespace ws -> rstrip (t ++ ws) = rstrip t.
Proof.
  intros Hw. unfold rstrip. rewrite rev_app_distr, lstrip_app_l; [reflexivity|].
  unfold whitespace in *. apply Forall_forall. intros c Hc.
  rewrite Forall_forall in Hw. apply Hw. now apply in_rev.
Qed.

Lemma strip_outer_whitespace (ws1 t ws2 : str) :
  whitespace ws1 -> whitespace ws2 -> strip (ws1 ++ t ++ ws2) = strip t.
Proof.
  intros H1 H2. unfold strip. rewrite (lstrip_app_l ws1 _ H1).
  rewrite (lstrip_app_r t ws2 H2).
  destruct (lstrip t) as [|c l] eqn:E; [reflexivity|].
  now apply rstrip_app_r.
Qed.

(** X6. Whitespace around the text (spaces, tabs, line ends, non-breaking
    and other Unicode spaces) does not change what [parse_cmd] returns. *)
Theorem parse_cmd_ignores_outer_whitespace (me : client) (ws1 text ws2 : str) :
  whitespace ws1 -> whitespace ws2 ->
  parse_cmd me (ws1 ++ text ++ ws2) = parse_cmd me text.
Proof.
  intros H1 H2. unfold parse_cmd, cmd_fields.
  now rewrite (strip_outer_whitespace ws1 text ws2 H1 H2).
Qed.

Lemma parse_cmd_ignores_outer_whitespace_witness :
  parse_cmd bot ([9; 160] ++ lit "/pkgver gcc" ++ [10; 12288])%N
  = parse_cmd bot (lit "/pkgver gcc").
Proof.
  apply parse_cmd_ignores_outer_whitespace;
    repeat constructor.
Defined.

(* ================================================================== *)
(** ** More on [bot_api] *)
(* ================================================================== *)

(** The statements of [bot_api] after the loop change no state. *)
Lemma envelope_eq (body : json) (s : state) :
  (ok <- lift (getitem body (lit "ok")) ;;
   if negb (truthy ok)
   then e <- lift (new_BotAPIFailed body) ;; raise e
   else lift (getitem body (lit "result")))%M s
  = (envelope body, s).
Proof.
  unfold envelope, bind, rbind, lift, raise.
  destruct (getitem body (lit "ok")) as [e|ok]; [reflexivity|].
  destruct (negb (truthy ok)); [|reflexivity].
  destruct (new_BotAPIFailed body); reflexivity.
Qed.

(** The four ways a call of [bot_api] can go. *)
Lemma bot_api_first_decoded m p s body :
  net s (calls s) = Decoded body ->
  bot_api m p s = (envelope body, posted m p s).
Proof.
  intros H. rewrite (bot_api_decoded m p s body H). apply envelope_eq.
Qed.

Lemma bot_api_first_fatal m p s e :
  net s (calls s) = Raises e -> is_Exception e = false ->
  bot_api m p s = (inl e, posted m p s).
Proof.
  intros H He. unfold bot_api, range3. cbn [bot_api_attempts].
  unfold bind, try, post, raise, posted. now rewrite H, He.
Qed.

Lemma bot_api_second_decoded m p s e body :
  net s (calls s) = Raises e -> is_Exception e = true ->
  net s (S (calls s)) = Decoded body ->
  bot_api m p s
  = (envelope body, posted m p (logged (ESleep (inject_Z 2)) (posted m p s))).
Proof.
  intros H He H1. rewrite <- envelope_eq.
  unfold bot_api, range3. cbn [bot_api_attempts].
  unfold bind at 1 2, try at 1, post at 1. rewrite H, He.
  unfold bind at 1 2 3, sleep, emit, try, post, ret. simpl.
  now rewrite H1.
Qed.

Lemma bot_api_second_raises m p s e0 e1 :
  net s (calls s) = Raises e0 -> is_Exception e0 = true ->
  net s (S (calls s)) = Raises e1 ->
  bot_api m p s
  = (inl e1, posted m p (logged (ESleep (inject_Z 2)) (posted m p s))).
Proof.
  intros H0 HE H1. unfold bot_api, range3. cbn [bot_api_attempts].
  unfold bind, try, post, sleep, emit, raise, posted, logged. simpl.
  rewrite H0, HE. simpl. rewrite H1.
  destruct (is_Exception e1); reflexivity.
Qed.

(** X7. [bot_api] makes one HTTP attempt, and a second one exactly when
    the first raised an [Exception]; it never makes a third. *)
Theorem bot_api_attempt_count m p s :
  calls (snd (bot_api m p s))
  = match net s (calls s) with
    | Decoded _ => (1 + calls s)%nat
    | Raises e => if is_Exception e then (2 + calls s)%nat
                  else (1 + calls s)%nat
    end.
Proof.
  destruct (net s (calls s)) as [e|body] eqn:H.
  - destruct (is_Exception e) eqn:He.
    + destruct (net s (S (calls s))) as [e1|body] eqn:H1.
      * now rewrite (bot_api_second_raises m p s e e1 H He H1).
      * now rewrite (bot_api_second_decoded m p s e body H He H1).
    + now rewrite (bot_api_first_fatal m p s e H He).
  - now rewrite (bot_api_first_decoded m p s body H).
Qed.

Lemma success_envelope (body r : json) : success body r -> envelope body = inr r.
Proof.
  intros (okv & Hok & Ht & Hr). unfold envelope, rbind. now rewrite Hok, Ht, Hr.
Qed.

(** X8. One transient failure is absorbed: when the first attempt raises
    an [Exception] and the second is answered with a success envelope,
    [bot_api] sleeps 2 between them and returns the result of the second
    answer. *)
Theorem bot_api_retries_once m p s e body r :
  net s (calls s) = Raises e -> is_Exception e = true ->
  net s (S (calls s)) = Decoded body -> success body r ->
  bot_api m p s
  = (inr r, posted m p (logged (ESleep (inject_Z 2)) (posted m p s))) /\
  log (snd (bot_api m p s))
  = log s ++ [EPost (token (self s)) m p 45; ESleep (inject_Z 2);
              EPost (token (self s)) m p 45].
Proof.
  intros H He H1 Hs.
  rewrite (bot_api_second_decoded m p s e body H He H1).
  rewrite (success_envelope body r Hs). split; [reflexivity|].
  simpl. now rewrite <- !app_assoc.
Qed.

Lemma bot_api_retries_once_witness :
  let s := start bot [Raises ConnectionError;
                      Decoded (ok_body (JStr (lit "sent")))] in
  fst (bot_api (lit "sendMessage") [] s) = inr (JStr (lit "sent")).
Proof.
  intros s.
  destruct (bot_api_retries_once (lit "sendMessage") [] s ConnectionError
              (ok_body (JStr (lit "sent"))) (JStr (lit "sent"))
              eq_refl eq_refl eq_refl) as [E _].
  - exists (JBool true). repeat split.
  - now rewrite E.
Defined.

(** X9. An exception that is not an [Exception] ([KeyboardInterrupt],
    [SystemExit]) raised by the first attempt leaves [bot_api] at once:
    no sleep, no second attempt. *)
Theorem bot_api_interrupt_not_retried m p s e :
  net s (calls s) = Raises e -> is_Exception e = false ->
  bot_api m p s = (inl e, posted m p s) /\
  log (snd (bot_api m p s)) = log s ++ [EPost (token (self s)) m p 45].
Proof.
  intros H He. now rewrite (bot_api_first_fatal m p s e H He).
Qed.

Lemma bot_api_interrupt_not_retried_witness :
  let e := BaseExceptionOnly (lit "KeyboardInterrupt") in
  let s := start bot [Raises e; Decoded (ok_body JNull)] in
  bot_api (lit "getMe") [] s = (inl e, posted (lit "getMe") [] s).
Proof.
  intros e s.
  exact (proj1 (bot_api_interrupt_not_retried (lit "getMe") [] s e
                  eq_refl eq_refl)).
Defined.

(** X10. A failure envelope becomes a [BotAPIFailed] that carries the
    whole body, its description, its error code and its parameters
    ([None] when the body has none), after a single attempt. *)
Theorem bot_api_remote_error m p s d okv dsc code :
  net s (calls s) = Decoded (JDict d) ->
  lookup (lit "ok") d = Some okv -> truthy okv = false ->
  lookup (lit "description") d = Some dsc ->
  lookup (lit "error_code") d = Some code ->
  bot_api m p s
  = (inl (BotAPIFailed (JDict d) dsc code
            (match lookup (lit "parameters") d with
             | Some v => v | None => JNull end)),
     posted m p s).
Proof.
  intros H Hok Ht Hd Hc. rewrite (bot_api_first_decoded m p s _ H).
  unfold envelope, new_BotAPIFailed, rbind, getitem, get.
  rewrite Hok, Ht, Hd, Hc. simpl.
  destruct (lookup (lit "parameters") d); reflexivity.
Qed.

Lemma bot_api_remote_error_witness :
  let s := start bot [Decoded not_found] in
  bot_api (lit "getMe") [] s
  = (inl (BotAPIFailed not_found (JStr (lit "Not Found")) (JInt 404) JNull),
     posted (lit "getMe") [] s).
Proof.
  intros s.
  exact (bot_api_remote_error (lit "getMe") [] s _ (JBool false)
           (JStr (lit "Not Found")) (JInt 404)
           eq_refl eq_refl eq_refl eq_refl eq_refl).
Defined.

(** X11. A decoded body that is not a proper envelope is not retried: a
    body that is no object gives [TypeError]; an object without [ok],
    a success without [result], or a failure without [description] or
    [error_code] gives [KeyError]; each after a single attempt. *)
Theorem bot_api_malformed_envelope m p s body :
  net s (calls s) = Decoded body ->
  ((forall d, body <> JDict d) ->
   bot_api m p s = (inl TypeError, posted m p s)) /\
  (forall d, body = JDict d -> lookup (lit "ok") d = None ->
             bot_api m p s = (inl KeyError, posted m p s)) /\
  (forall d okv, body = JDict d -> lookup (lit "ok") d = Some okv ->
                 truthy okv = true -> lookup (lit "result") d = None ->
                 bot_api m p s = (inl KeyError, posted m p s)) /\
  (forall d okv, body = JDict d -> lookup (lit "ok") d = Some okv ->
                 truthy okv = false ->
                 lookup (lit "description") d = None \/
                 lookup (lit "error_code") d = None ->
                 bot_api m p s = (inl KeyError, posted m p s)).
Proof.
  intros H. rewrite (bot_api_first_decoded m p s body H).
  split; [|split; [|split]].
  - intros Hn. destruct body; try reflexivity. now destruct (Hn d).
  - intros d -> Hok. unfold envelope, getitem, rbind. now rewrite Hok.
  - intros d okv -> Hok Ht Hr. unfold envelope, getitem, rbind.
    now rewrite Hok, Ht, Hr.
  - intros d okv -> Hok Ht Hm.
    unfold envelope, new_BotAPIFailed, getitem, rbind. rewrite Hok, Ht. simpl.
    destruct (lookup (lit "description") d) as [dsc|] eqn:Hd; [|reflexivity].
    destruct Hm as [Hm|Hm]; [discriminate Hm|]. now rewrite Hm.
Qed.

Lemma bot_api_malformed_envelope_witness :
  let s := start bot [Decoded (JList []); Decoded (ok_body JNull)] in
  bot_api (lit "getUpdates") [] s = (inl TypeError, posted (lit "getUpdates") [] s).
Proof.
  intros s.
  apply (proj1 (bot_api_malformed_envelope (lit "getUpdates") [] s (JList [])
                  eq_refl)).
  intros d Hd. discriminate Hd.
Defined.

(* ================================================================== *)
(** ** More on [serve] *)
(* ================================================================== *)

(** X12. A fetch that raises an [Exception] other than [BotAPIFailed]
    costs one pass: it is logged and the loop goes on from the state the
    fetch left, the local [updates] as it was. An exception that is not
    an [Exception] leaves [serve]. *)
Theorem serve_survives_fetch_error kwargs fuel u s e s1 :
  run (self s) = true ->
  getUpdates s = (inl e, s1) -> is_BotAPIFailed e = false ->
  (is_Exception e = true ->
   serve_loop kwargs (S fuel) u s
   = serve_loop kwargs fuel u
       (logged (ELogException (lit "Get updates failed.") e) s1)) /\
  (is_Exception e = false ->
   serve_loop kwargs (S fuel) u s = (Raised e, s1)).
Proof.
  intros Hrun H Hb. split; intros He; cbn [serve_loop]; rewrite Hrun.
  - now rewrite (proj1 (serve_body_fetch_error kwargs u s e s1 H Hb He)).
  - unfold serve_body, fetch, bind, try. rewrite H.
    destruct e; try discriminate; reflexivity.
Qed.

Lemma serve_survives_fetch_error_witness :
  let e := BaseExceptionOnly (lit "KeyboardInterrupt") in
  let s := start bot [Raises e] in
  serve [(lit "message", noop)] 5 s = (Raised e, polled s).
Proof.
  intros e s.
  exact (proj2 (serve_survives_fetch_error [(lit "message", noop)] 4 None s e
                  (polled s) eq_refl eq_refl eq_refl) eq_refl).
Defined.

Lemma dead_posted (s s' : state) : net s' = net s -> dead s -> dead s'.
Proof. intros E H n. rewrite E. apply H. Qed.

(** X13. While every HTTP attempt raises, [serve] neither returns nor
    raises: whatever the number of passes, each pass makes two attempts,
    and the client is never changed. *)
Theorem serve_polls_forever kwargs fuel u s :
  run (self s) = true -> dead s ->
  fst (serve_loop kwargs fuel u s) = OutOfFuel /\
  calls (snd (serve_loop kwargs fuel u s)) = (calls s + 2 * fuel)%nat /\
  self (snd (serve_loop kwargs fuel u s)) = self s.
Proof.
  revert s. induction fuel as [|fuel IH]; intros s Hrun Hd.
  - simpl. repeat split. lia.
  - destruct (Hd (calls s)) as (e0 & H0 & He0 & _).
    destruct (Hd (S (calls s))) as (e1 & H1 & He1 & Hb1).
    pose proof (bot_api_second_raises (lit "getUpdates") (poll_params s) s
                  e0 e1 H0 He0 H1) as E.
    rewrite <- getUpdates_eq in E.
    cbn [serve_loop]. rewrite Hrun.
    rewrite (proj1 (serve_body_fetch_error kwargs u s e1 _ E Hb1 He1)).
    match goal with |- context [serve_loop kwargs fuel u ?s1] =>
      destruct (IH s1) as (I1 & I2 & I3);
        [exact Hrun | now apply (dead_posted s) |]
    end.
    rewrite I1, I2, I3. simpl. repeat split. lia.
Qed.

Lemma serve_polls_forever_witness :
  fst (serve [(lit "message", noop)] 7 (start bot [])) = OutOfFuel /\
  calls (snd (serve [(lit "message", noop)] 7 (start bot []))) = 14%nat.
Proof.
  destruct (serve_polls_forever [(lit "message", noop)] 7 None (start bot [])
              eq_refl) as (F & C & _).
  - intros n. exists ConnectionError. repeat split.
    unfold start, script. simpl. now destruct n.
  - split; [exact F | exact C].
Defined.

(** X14. When the last update of a batch fetched in any pass is an
    object without [update_id], [serve] raises [KeyError]; when its
    [update_id] is null, a string, a list or an object, [serve] raises
    [TypeError]; either way before the cursor is assigned and before any
    callback runs. *)
Theorem serve_batch_without_identifier kwargs fuel u s s1 batch d :
  run (self s) = true ->
  getUpdates s = (inr (JList batch), s1) -> last_opt batch = Some (JDict d) ->
  (lookup (lit "update_id") d = None ->
   serve_loop kwargs (S fuel) u s = (Raised KeyError, s1)) /\
  (forall v, lookup (lit "update_id") d = Some v -> not_a_number v ->
             serve_loop kwargs (S fuel) u s = (Raised TypeError, s1)) /\
  self s1 = self s.
Proof.
  intros Hrun H Hl.
  assert (P : serve_body kwargs u s
              = (o <- lift (i <- getitem (JDict d) (lit "update_id") ;;
                            add1 i)%res ;;
                 set_offset o ;;;
                 upds <- lift (iter (JList batch)) ;;
                 dispatch kwargs upds ;;;
                 sleep (2 # 10) ;;;
                 ret (Some (JList batch)))%M s1).
  { unfold serve_body. unfold bind at 1.
    rewrite (fetch_returns u s _ s1 H).
    unfold process. cbn [truthy]. rewrite (last_opt_nonempty _ _ Hl).
    cbn [negb getitem_last]. unfold index_last. rewrite Hl.
    unfold bind, lift, rbind.
    destruct (getitem (JDict d) (lit "update_id")) as [e|v]; [reflexivity|].
    destruct (add1 v) as [e|o]; [reflexivity|].
    cbn [set_offset iter].
    destruct (dispatch kwargs batch _) as [[e|[]] s2]; reflexivity. }
  split; [|split].
  - intros Hn. cbn [serve_loop]. rewrite Hrun, P.
    unfold bind, lift, rbind, getitem. now rewrite Hn.
  - intros v Hv Hnn. cbn [serve_loop]. rewrite Hrun, P.
    unfold bind, lift, rbind, getitem. rewrite Hv.
    destruct v; try reflexivity; destruct Hnn.
  - exact (getUpdates_keeps_client s _ s1 H).
Qed.

Lemma serve_batch_without_identifier_witness :
  let batch := [update 5 (lit "message") JNull;
                JDict [(lit "message", JNull)]] in
  let s := start bot [Decoded (ok_body (JList batch))] in
  serve_loop [(lit "message", noop)] 3 (Some (JList [])) s
  = (Raised KeyError, polled s).
Proof.
  intros batch s.
  exact (proj1 (serve_batch_without_identifier [(lit "message", noop)] 2
                  (Some (JList [])) s (polled s) batch
                  [(lit "message", JNull)] eq_refl eq_refl eq_refl) eq_refl).
Defined.

Lemma apply_all_app l1 l2 s :
  apply_all (l1 ++ l2) s
  = match apply_all l1 s with
    | (inl e, s1) => (inl e, s1)
    | (inr _, s1) => apply_all l2 s1
    end.
Proof.
  revert s. induction l1 as [|[[k f] v] l1 IH]; intros s; [reflexivity|].
  cbn [app apply_all]. unfold bind, emit.
  destruct (f v _) as [[e|[]] s1]; [reflexivity|]. apply IH.
Qed.

Lemma dispatch_items_applies kwargs its s :
  dispatch_items kwargs its s = apply_all (payloads kwargs its) s.
Proof.
  revert s. induction its as [|[k v] its IH]; intros s; [reflexivity|].
  cbn [dispatch_items payloads]. unfold bind at 1.
  destruct (str_eqb k (lit "update_id")); [exact (IH s)|].
  destruct (lookup k kwargs) as [f|]; [|exact (IH s)].
  cbn [app apply_all]. unfold invoke, bind, emit.
  destruct (f v _) as [[e|[]] s1]; [reflexivity|]. apply IH.
Qed.

Lemma payloads_registered kwargs its k f v :
  In (k, f, v) (payloads kwargs its) <->
  In (k, v) its /\ k <> lit "update_id" /\ lookup k kwargs = Some f.
Proof.
  induction its as [|[k' v'] its IH]; [simpl; tauto|].
  cbn [payloads]. rewrite in_app_iff, IH. clear IH.
  assert (Hhead :
    In (k, f, v)
       (if str_eqb k' (lit "update_id") then []
        else match lookup k' kwargs with
             | Some f0 => [(k', f0, v')]
             | None => []
             end)
    <-> (k', v') = (k, v) /\ k <> lit "update_id" /\ lookup k kwargs = Some f).
  { destruct (str_eqb k' (lit "update_id")) eqn:E.
    - apply str_eqb_eq in E. subst k'. simpl. split; [tauto|].
      intros (Heq & Hk & _). injection Heq as <- _. now destruct Hk.
    - assert (Hk' : k' <> lit "update_id").
      { intros ->. rewrite str_eqb_refl in E. discriminate E. }
      destruct (lookup k' kwargs) as [f'|] eqn:El; simpl.
      + split.
        * intros [Heq|[]]. injection Heq as <- <- <-. auto.
        * intros (Heq & Hk & Hl). injection Heq as <- <-. left. congruence.
      + split; [tauto|].
        intros (Heq & Hk & Hl). injection Heq as <- <-. congruence. }
  rewrite Hhead. simpl. tauto.
Qed.

(** X15. Dispatching a batch of update objects is applying, one after
    the other and until one raises, the registered callback to every
    payload whose kind has one, in the order of the batch and of the
    keys; the payloads so called are exactly those of the updates whose
    key is not [update_id] and has a callback. *)
Theorem dispatch_applies kwargs batch :
  Forall is_dict batch ->
  (forall s, dispatch kwargs batch s
             = apply_all (batch_payloads kwargs batch) s) /\
  (forall k f v,
      In (k, f, v) (batch_payloads kwargs batch) <->
      exists d, In (JDict d) batch /\ In (k, v) d /\
                k <> lit "update_id" /\ lookup k kwargs = Some f).
Proof.
  intros Hd. split.
  - induction Hd as [|u batch [d ->] _ IH]; intros s; [reflexivity|].
    cbn [dispatch batch_payloads items]. unfold bind at 1, lift.
    unfold bind. rewrite apply_all_app, dispatch_items_applies.
    destruct (apply_all (payloads kwargs d) s) as [[e|[]] s1];
      [reflexivity|]. apply IH.
  - intros k f v. induction Hd as [|u batch [d ->] _ IH].
    + simpl. split; [tauto|]. intros (d & [] & _).
    + cbn [batch_payloads]. rewrite in_app_iff, IH, payloads_registered.
      split.
      * intros [H|(d' & Hin & H)].
        -- exists d. split; [now left | exact H].
        -- exists d'. split; [now right | exact H].
      * intros (d' & [Heq|Hin] & H').
        -- injection Heq as <-. now left.
        -- right. now exists d'.
Qed.

Lemma dispatch_applies_witness :
  let batch := [update 5 (lit "message") (JInt 1);
                update 6 (lit "edited_message") (JInt 2);
                update 7 (lit "message") (JInt 3)] in
  let s := start bot [] in
  dispatch [(lit "message", stopper)] batch s
  = (emit (ECall (lit "message") (JInt 1)) ;;; stopper (JInt 1) ;;;
     emit (ECall (lit "message") (JInt 3)) ;;; stopper (JInt 3) ;;;
     ret tt)%M s /\
  run (self (snd (dispatch [(lit "message", stopper)] batch s))) = false.
Proof.
  intros batch s.
  assert (Hd : Forall is_dict batch)
    by (repeat constructor; eexists; reflexivity).
  rewrite (proj1 (dispatch_applies [(lit "message", stopper)] batch Hd) s).
  split; reflexivity.
Defined.

(* ================================================================== *)
(** ** The message callback *)
(* ================================================================== *)

Lemma parse_cmd_returns (me : client) (text : str) :
  exists r, parse_cmd me text = inr r.
Proof.
  assert (G : forall c0 rest, rsplit1 AT (head_token text) = c0 :: rest ->
               rest = [] \/ (exists h, rest = [h]) ->
               exists r, parse_cmd me text = inr r).
  { intros c0 rest Hc Hrest. destruct c0 as [|x [|y v]].
    - eexists. apply parse_cmd_short with (c0 := []) (rest := rest);
        [exact Hc|simpl; lia].
    - eexists. apply parse_cmd_short with (c0 := [x]) (rest := rest);
        [exact Hc|simpl; lia].
    - destruct (N.eq_dec x SLASH) as [->|Hx].
      + destruct Hrest as [->|[h ->]].
        * eexists. apply parse_cmd_accept with (sfx := []);
            [exact Hc|easy|now left].
        * destruct (list_eq_dec N.eq_dec h (username me)) as [->|Hh].
          -- eexists. apply parse_cmd_accept with (sfx := [username me]);
               [exact Hc|easy|now right].
          -- eexists.
             now apply parse_cmd_mismatch with (c0 := SLASH :: y :: v) (h := h).
      + eexists.
        now apply parse_cmd_nomarker with (x := x) (c0 := y :: v) (rest := rest). }
  destruct (rsplit1_shape AT (head_token text)) as [[Hc _]|(c0 & h & Hc & _ & _)].
  - apply (G _ _ Hc). now left.
  - apply (G _ _ Hc). right. now exists h.
Qed.

Lemma parse_cmd_no_marker (me : client) (text : str) :
  no_marker text -> parse_cmd me text = inr (None, None).
Proof.
  intros Hnm.
  destruct (rsplit1_prefix AT (head_token text)) as (c0 & rest & tl_ & Hc & Hp).
  destruct c0 as [|x c0].
  - apply parse_cmd_short with (c0 := []) (rest := rest); [exact Hc|simpl; lia].
  - apply parse_cmd_nomarker with (x := x) (c0 := c0) (rest := rest);
      [exact Hc|].
    destruct (head_token_prefix text) as [r Hr].
    rewrite Hp in Hr. simpl in Hr. unfold no_marker in Hnm.
    destruct (strip text) as [|y s]; [discriminate|].
    simpl in Hr. injection Hr as Hx _. intros ->.
    unfold char_eqb in Hx. destruct (N.eqb_spec y NBSP) as [->|Hy].
    + discriminate Hx.
    + subst y. now apply (Hnm s).
Qed.

Lemma getitem_raises_Exception o k e :
  getitem o k = inl e -> is_Exception e = true.
Proof.
  destruct o; simpl; try (intros [= <-]; reflexivity).
  destruct (lookup k d); [discriminate|]. intros [= <-]. reflexivity.
Qed.

Lemma envelope_raises_Exception body e :
  envelope body = inl e -> is_Exception e = true.
Proof.
  unfold envelope, rbind.
  destruct (getitem body (lit "ok")) as [e0|ok] eqn:Hok.
  - intros [= <-]. exact (getitem_raises_Exception _ _ _ Hok).
  - destruct (negb (truthy ok)).
    + unfold new_BotAPIFailed, rbind.
      destruct (getitem body (lit "description")) as [e1|dsc] eqn:Hd.
      { intros [= <-]. exact (getitem_raises_Exception _ _ _ Hd). }
      destruct (getitem body (lit "error_code")) as [e2|code] eqn:Hc.
      { intros [= <-]. exact (getitem_raises_Exception _ _ _ Hc). }
      destruct body; simpl; try (intros [= <-]; reflexivity).
      destruct (lookup (lit "parameters") d); intros [= <-]; reflexivity.
    + apply getitem_raises_Exception.
Qed.

(** In a tame world [bot_api] raises nothing but [Exception]s. *)
Lemma bot_api_tame m p s e :
  tame s -> fst (bot_api m p s) = inl e -> is_Exception e = true.
Proof.
  intros Ht.
  destruct (net s (calls s)) as [e0|body] eqn:H.
  - pose proof (Ht _ _ H) as He0.
    destruct (net s (S (calls s))) as [e1|body] eqn:H1.
    + rewrite (bot_api_second_raises m p s e0 e1 H He0 H1). simpl.
      intros [= <-]. exact (Ht _ _ H1).
    + rewrite (bot_api_second_decoded m p s e0 body H He0 H1). simpl.
      apply envelope_raises_Exception.
  - rewrite (bot_api_first_decoded m p s body H). simpl.
    apply envelope_raises_Exception.
Qed.

Lemma bot_api_keeps_tame m p s : tame s -> tame (snd (bot_api m p s)).
Proof.
  intros Ht n e. destruct (keeps_client_bot_api m p s) as (_ & -> & _).
  apply Ht.
Qed.

Section MessageHandler.

Variables cmd_pkgver cmd_search cmd_getupdreq : handler.
Variable logging_info : str -> M unit.

Local Abbreviation cmds' := (cmds cmd_pkgver cmd_search cmd_getupdreq).
Local Abbreviation run_command' := (run_command logging_info).
Local Abbreviation message_handler' :=
  (message_handler cmd_pkgver cmd_search cmd_getupdreq logging_info).

Lemma lookup_cmds_none (c : str) :
  ~ In c [lit "pkgver"; lit "search"; lit "getupdreq"; lit "start"] ->
  lookup c cmds' = None.
Proof.
  intros Hn. unfold cmds. cbn [lookup].
  repeat match goal with
         | |- context [str_eqb ?a c] =>
             let E := fresh in
             destruct (str_eqb a c) eqn:E;
               [apply str_eqb_eq in E; exfalso; apply Hn; subst c; simpl; tauto|]
         end.
  reflexivity.
Qed.

(** The handler and what follows, once the text is known to be a
    command [cmd] with handler [h]. *)
Lemma message_handler_command d t s cmd expr h :
  msg_text d = JStr t ->
  parse_cmd (self s) t = inr (Some cmd, expr) -> cmd <> [] ->
  lookup cmd cmds' = Some h ->
  message_handler' (JDict d) s
  = (reply <- run_command' h (JDict d) expr t ;;
     match reply with
     | None => ret tt
     | Some text => if is_empty text then ret tt
                    else send_reply (JDict d) text
     end)%M s.
Proof.
  intros Ht Hp Hc Hl. unfold message_handler.
  unfold bind at 1, lift, get_default. fold (msg_text d). rewrite Ht.
  unfold bind at 1, get_self. unfold bind at 1, lift. rewrite Hp.
  cbn [fst snd]. destruct cmd; [now destruct Hc|]. cbn [is_empty].
  now rewrite Hl.
Qed.

(** X16. A message without text, a text that does not start with the
    marker, and a command that is none of [pkgver], [search],
    [getupdreq] and [start] are ignored: nothing is logged, sent or
    changed. *)
Theorem message_handler_ignores d t s :
  msg_text d = JStr t ->
  no_marker t \/
  (forall c e, parse_cmd (self s) t = inr (Some c, e) ->
               ~ In c [lit "pkgver"; lit "search"; lit "getupdreq"; lit "start"]) ->
  message_handler' (JDict d) s = (inr tt, s).
Proof.
  intros Ht Hc. unfold message_handler.
  unfold bind at 1, lift, get_default. fold (msg_text d). rewrite Ht.
  unfold bind at 1, get_self. unfold bind at 1, lift.
  destruct Hc as [Hnm|Hc].
  - now rewrite (parse_cmd_no_marker (self s) t Hnm).
  - destruct (parse_cmd_returns (self s) t) as [[[c|] e] Hp]; rewrite Hp;
      [|reflexivity].
    cbn [fst snd]. destruct (is_empty c); [reflexivity|].
    now rewrite (lookup_cmds_none c (Hc c e Hp)).
Qed.

(** X17. A command whose handler raises an [Exception] is answered: the
    failure is logged and the fallback text is sent as the reply. *)
Theorem message_handler_handler_failure d t s cmd expr h ex s1 :
  msg_text d = JStr t ->
  parse_cmd (self s) t = inr (Some cmd, expr) -> cmd <> [] ->
  lookup cmd cmds' = Some h ->
  h (JDict d) expr s = (inl ex, s1) -> is_Exception ex = true ->
  message_handler' (JDict d) s
  = send_reply (JDict d) fallback_text
      (logged (ELogException (lit "Failed command: " ++ t) ex) s1).
Proof.
  intros Ht Hp Hc Hl Hh He.
  rewrite (message_handler_command d t s cmd expr h Ht Hp Hc Hl).
  unfold bind at 1, run_command. unfold bind at 1, try. unfold bind at 1.
  rewrite Hh. rewrite He. reflexivity.
Qed.

(** X18. A handler that returns nothing, or the empty string, gets no
    reply sent: the command is logged and that is all. [/start] is such
    a command. *)
Theorem message_handler_silent d t s cmd expr h v s1 s2 :
  msg_text d = JStr t ->
  parse_cmd (self s) t = inr (Some cmd, expr) -> cmd <> [] ->
  lookup cmd cmds' = Some h ->
  h (JDict d) expr s = (inr v, s1) -> v = None \/ v = Some [] ->
  logging_info (lit "Command: " ++ t) s1 = (inr tt, s2) ->
  message_handler' (JDict d) s = (inr tt, s2) /\
  lookup (lit "start") cmds' = Some cmd_start /\
  (forall msg e s', cmd_start msg e s' = (inr None, s')).
Proof.
  intros Ht Hp Hc Hl Hh Hv Hi. split; [|split; reflexivity].
  rewrite (message_handler_command d t s cmd expr h Ht Hp Hc Hl).
  unfold bind at 1, run_command. unfold bind at 1, try. unfold bind at 1.
  rewrite Hh. unfold bind at 1. rewrite Hi. unfold ret.
  destruct Hv as [-> | ->]; reflexivity.
Qed.

(** X19. A non-empty reply goes to the chat the message came from: the
    next HTTP attempt is [sendMessage] with that chat's [id], the text,
    [parse_mode] Markdown and the link preview disabled. *)
Theorem message_handler_reply d t s cmd expr h text s1 s2 chat chat_id :
  msg_text d = JStr t ->
  parse_cmd (self s) t = inr (Some cmd, expr) -> cmd <> [] ->
  lookup cmd cmds' = Some h ->
  h (JDict d) expr s = (inr (Some text), s1) -> text <> [] ->
  logging_info (lit "Command: " ++ t) s1 = (inr tt, s2) ->
  lookup (lit "chat") d = Some chat ->
  getitem chat (lit "id") = inr chat_id ->
  exists rest,
    log (snd (message_handler' (JDict d) s))
    = log s2 ++ EPost (token (self s2)) (lit "sendMessage")
                      (reply_params chat_id text) 45 :: rest.
Proof.
  intros Ht Hp Hc Hl Hh Hx Hi Hchat Hid.
  rewrite (message_handler_command d t s cmd expr h Ht Hp Hc Hl).
  unfold bind at 1, run_command. unfold bind at 1, try. unfold bind at 1.
  rewrite Hh. unfold bind at 1. rewrite Hi. unfold ret.
  destruct text as [|c text]; [now destruct Hx|]. cbn [is_empty].
  unfold send_reply. unfold bind at 1, try. unfold bind at 1, lift, getitem at 1.
  rewrite Hchat. unfold bind at 1. rewrite Hid. unfold __getattr__.
  destruct (bot_api_posts (lit "sendMessage")
              (reply_params chat_id (c :: text)) s2) as [_ [rest Hrest]].
  destruct (bot_api _ _ s2) as [[ex|r] s3]; simpl in Hrest.
  - destruct (is_Exception ex).
    + simpl. rewrite Hrest. exists (rest ++ [ELogException
                 (lit "Failed to send: " ++ c :: text) ex]).
      now rewrite <- app_assoc.
    + simpl. now exists rest.
  - simpl. now exists rest.
Qed.

(** X20. When the message has no [chat], or the chat no [id], the reply
    cannot be addressed: no HTTP attempt is made, the error is logged,
    and the callback returns. *)
Theorem message_handler_no_chat d t s cmd expr h text s1 s2 :
  msg_text d = JStr t ->
  parse_cmd (self s) t = inr (Some cmd, expr) -> cmd <> [] ->
  lookup cmd cmds' = Some h ->
  h (JDict d) expr s = (inr (Some text), s1) -> text <> [] ->
  logging_info (lit "Command: " ++ t) s1 = (inr tt, s2) ->
  (lookup (lit "chat") d = None ->
   message_handler' (JDict d) s
   = (inr tt, logged (ELogException (lit "Failed to send: " ++ text) KeyError)
                     s2)) /\
  (forall chat e,
      lookup (lit "chat") d = Some chat -> getitem chat (lit "id") = inl e ->
      message_handler' (JDict d) s
      = (inr tt, logged (ELogException (lit "Failed to send: " ++ text) e) s2)).
Proof.
  intros Ht Hp Hc Hl Hh Hx Hi.
  assert (E : message_handler' (JDict d) s = send_reply (JDict d) text s2).
  { rewrite (message_handler_command d t s cmd expr h Ht Hp Hc Hl).
    unfold bind at 1, run_command. unfold bind at 1, try. unfold bind at 1.
    rewrite Hh. unfold bind at 1. rewrite Hi. unfold ret.
    destruct text; [now destruct Hx | reflexivity]. }
  rewrite E. split.
  - intros Hchat. unfold send_reply, bind, try, lift, getitem.
    now rewrite Hchat.
  - intros chat e Hchat Hid. unfold send_reply.
    unfold bind at 1, try. unfold bind at 1, lift, getitem at 1.
    rewrite Hchat. unfold bind at 1. rewrite Hid.
    now rewrite (getitem_raises_Exception _ _ _ Hid).
Qed.

End MessageHandler.

Lemma tame_same_net (s s' : state) : net s' = net s -> tame s -> tame s'.
Proof. intros E H n e. rewrite E. apply H. Qed.

Lemma send_reply_tame msg text s :
  tame s ->
  fst (send_reply msg text s) = inr tt /\ tame (snd (send_reply msg text s)).
Proof.
  intros Ht. unfold send_reply, bind, try, lift.
  destruct (getitem msg (lit "chat")) as [e|chat] eqn:Hc.
  - rewrite (getitem_raises_Exception _ _ _ Hc). simpl. now split.
  - destruct (getitem chat (lit "id")) as [e|chat_id] eqn:Hi.
    + rewrite (getitem_raises_Exception _ _ _ Hi). simpl. now split.
    + unfold __getattr__.
      pose proof (bot_api_tame (lit "sendMessage")
                    (reply_params chat_id text) s) as HE.
      pose proof (bot_api_keeps_tame (lit "sendMessage")
                    (reply_params chat_id text) s Ht) as HT.
      destruct (bot_api _ _ s) as [[ex|r] s1]; simpl in *.
      * rewrite (HE ex Ht eq_refl). simpl. now split.
      * now split.
Qed.

Section MessageHandlerSafety.

Variables cmd_pkgver cmd_search cmd_getupdreq : handler.
Variable logging_info : str -> M unit.

Local Abbreviation cmds' := (cmds cmd_pkgver cmd_search cmd_getupdreq).
Local Abbreviation run_command' := (run_command logging_info).
Local Abbreviation message_handler' :=
  (message_handler cmd_pkgver cmd_search cmd_getupdreq logging_info).

Lemma lookup_cmds_some (P : handler -> Prop) c h :
  P cmd_pkgver -> P cmd_search -> P cmd_getupdreq -> P cmd_start ->
  lookup c cmds' = Some h -> P h.
Proof.
  intros H1 H2 H3 H4. unfold cmds. cbn [lookup].
  repeat match goal with
         | |- context [str_eqb ?a c] =>
             destruct (str_eqb a c); [intros [= <-]; assumption|]
         end.
  discriminate.
Qed.

Lemma cmd_start_ok : handler_ok cmd_start.
Proof. intros msg e s. split; [discriminate|auto]. Qed.

Lemma run_command_tame h msg expr t s :
  handler_ok h -> logger_ok logging_info -> tame s ->
  (exists v, fst (run_command' h msg expr t s) = inr v) /\
  tame (snd (run_command' h msg expr t s)).
Proof.
  intros Hh Hl Ht. unfold run_command, bind, try.
  destruct (Hh msg expr s) as [HE HT].
  destruct (h msg expr s) as [[ex|v] s1]; simpl in HE, HT.
  - rewrite (HE ex eq_refl). simpl. split; [eauto|]. now apply HT.
  - destruct (Hl (lit "Command: " ++ t) s1) as [F T].
    destruct (logging_info _ s1) as [[e|[]] s2]; simpl in F, T;
      [discriminate F|].
    simpl. split; [eauto|]. apply T. now apply HT.
Qed.

Lemma message_handler_tame d t s :
  handler_ok cmd_pkgver -> handler_ok cmd_search ->
  handler_ok cmd_getupdreq -> logger_ok logging_info ->
  msg_text d = JStr t -> tame s ->
  fst (message_handler' (JDict d) s) = inr tt /\
  tame (snd (message_handler' (JDict d) s)).
Proof.
  intros H1 H2 H3 Hl Ht Hs. unfold message_handler, bind, lift, get_default.
  fold (msg_text d). rewrite Ht. unfold get_self.
  destruct (parse_cmd_returns (self s) t) as [[[c|] e] Hp]; rewrite Hp;
    [|now split].
  cbn [fst snd]. destruct (is_empty c); [now split|].
  destruct (lookup c cmds') as [h|] eqn:Hc; [|now split].
  assert (Hh : handler_ok h)
    by exact (lookup_cmds_some handler_ok c h H1 H2 H3 cmd_start_ok Hc).
  destruct (run_command_tame h (JDict d) e t s Hh Hl Hs) as [[v F] T].
  destruct (run_command' h (JDict d) e t s) as [[ex|r] s1]; simpl in F, T;
    [discriminate F|].
  destruct r as [text|]; [|now split].
  destruct (is_empty text); [now split|].
  now apply send_reply_tame.
Qed.

(** X21. The message callback lets no [Exception] out: when the message
    is an object whose text is a string or is missing, and neither the
    command handlers nor the HTTP attempts raise anything that is not an
    [Exception], [message_handler] returns, whatever the handler and the
    send do. *)
Theorem message_handler_catches d t s :
  handler_ok cmd_pkgver -> handler_ok cmd_search ->
  handler_ok cmd_getupdreq -> logger_ok logging_info ->
  msg_text d = JStr t -> tame s ->
  fst (message_handler' (JDict d) s) = inr tt.
Proof.
  intros H1 H2 H3 Hl Ht Hs.
  exact (proj1 (message_handler_tame d t s H1 H2 H3 Hl Ht Hs)).
Qed.

Lemma keeps_self_send_reply msg text : keeps_self (send_reply msg text).
Proof.
  intros s. unfold send_reply, bind, try, lift.
  destruct (getitem msg (lit "chat")) as [e|chat]; simpl.
  - destruct (is_Exception e); reflexivity.
  - destruct (getitem chat (lit "id")) as [e|chat_id]; simpl.
    + destruct (is_Exception e); reflexivity.
    + unfold __getattr__.
      destruct (keeps_client_bot_api (lit "sendMessage")
                  (reply_params chat_id text) s) as (K & _).
      destruct (bot_api _ _ s) as [[ex|r] s1]; simpl in *; [|exact K].
      destruct (is_Exception ex); exact K.
Qed.

Lemma keeps_self_run_command h msg expr t :
  keeps_self (h msg expr) -> (forall m, keeps_self (logging_info m)) ->
  keeps_self (run_command' h msg expr t).
Proof.
  intros Hh Hl s. unfold run_command, bind, try. specialize (Hh s).
  destruct (h msg expr s) as [[ex|v] s1]; simpl in Hh.
  - destruct (is_Exception ex); exact Hh.
  - specialize (Hl (lit "Command: " ++ t) s1).
    destruct (logging_info _ s1) as [[e|[]] s2]; simpl in Hl.
    + destruct (is_Exception e); simpl; congruence.
    + simpl. congruence.
Qed.

(** X22. The message callback assigns no attribute of the client
    (cursor, run-state, token, handle) when the command handlers and the
    logger do not; so it is a callback that keeps the cursor. *)
Theorem message_handler_keeps_client :
  (forall msg e, keeps_self (cmd_pkgver msg e)) ->
  (forall msg e, keeps_self (cmd_search msg e)) ->
  (forall msg e, keeps_self (cmd_getupdreq msg e)) ->
  (forall m, keeps_self (logging_info m)) ->
  (forall msg, keeps_self (message_handler' msg)) /\
  callbacks_keep_offset [(lit "message", message_handler')].
Proof.
  intros H1 H2 H3 Hl.
  assert (K : forall msg, keeps_self (message_handler' msg)).
  { intros msg s. unfold message_handler, bind, lift.
    destruct (get_default msg (lit "text") (JStr [])) as [e|v]; [reflexivity|].
    destruct v; try reflexivity. unfold get_self.
    destruct (parse_cmd (self s) s0) as [e|[[c|] e]]; try reflexivity.
    cbn [fst snd]. destruct (is_empty c); [reflexivity|].
    destruct (lookup c cmds') as [h|] eqn:Hc; [|reflexivity].
    assert (Hh : forall msg e, keeps_self (h msg e)).
    { apply (lookup_cmds_some (fun h => forall msg e, keeps_self (h msg e))
               c h H1 H2 H3); [|exact Hc].
      intros m' e' s'. reflexivity. }
    pose proof (keeps_self_run_command h msg e s0 (Hh msg e) Hl s) as R.
    destruct (run_command' h msg e s0 s) as [[ex|r] s1]; simpl in R;
      [exact R|].
    destruct r as [text|]; [|exact R].
    destruct (is_empty text); [exact R|].
    rewrite (keeps_self_send_reply msg text s1). exact R. }
  split; [exact K|].
  intros k f v. cbn [lookup].
  destruct (str_eqb (lit "message") k); [|discriminate].
  intros [= <-] s. now rewrite (K v s).
Qed.

Lemma dispatch_items_message_tame its s :
  handler_ok cmd_pkgver -> handler_ok cmd_search ->
  handler_ok cmd_getupdreq -> logger_ok logging_info ->
  (forall v, In (lit "message", v) its ->
             exists md t, v = JDict md /\ msg_text md = JStr t) ->
  tame s ->
  fst (dispatch_items [(lit "message", message_handler')] its s) = inr tt /\
  tame (snd (dispatch_items [(lit "message", message_handler')] its s)).
Proof.
  intros H1 H2 H3 Hl. revert s.
  induction its as [|[k v] its IH]; intros s Hg Hs; [now split|].
  assert (Hg' : forall v', In (lit "message", v') its ->
                 exists md t, v' = JDict md /\ msg_text md = JStr t).
  { intros v' Hv. apply Hg. now right. }
  cbn [dispatch_items lookup]. unfold bind.
  destruct (str_eqb k (lit "update_id")); [exact (IH s Hg' Hs)|].
  destruct (str_eqb (lit "message") k) eqn:Ek; [|exact (IH s Hg' Hs)].
  apply str_eqb_eq in Ek. subst k.
  destruct (Hg v (or_introl eq_refl)) as (md & t & -> & Ht).
  unfold invoke, bind, emit.
  destruct (message_handler_tame md t (logged (ECall (lit "message") (JDict md)) s)
              H1 H2 H3 Hl Ht Hs) as [F T].
  unfold logged in F, T.
  destruct (message_handler' (JDict md) _) as [[e|[]] s1]; simpl in F, T;
    [discriminate F|].
  exact (IH s1 Hg' T).
Qed.

(** X23. The loop as [main] runs it, with [message_handler] as the
    callback for [message]: a pass over a fetched batch of update objects
    whose messages are well formed always completes, whatever the
    command handlers and the sends do short of raising something that
    is not an [Exception]. *)
Theorem serve_pass_with_message_handler u s s1 batch l i :
  handler_ok cmd_pkgver -> handler_ok cmd_search ->
  handler_ok cmd_getupdreq -> logger_ok logging_info ->
  tame s ->
  getUpdates s = (inr (JList batch), s1) ->
  last_opt batch = Some l -> getitem l (lit "update_id") = inr (JInt i) ->
  Forall good_update batch ->
  fst (serve_body [(lit "message", message_handler')] u s)
  = inr (Some (JList batch)).
Proof.
  intros H1 H2 H3 Hl Hs H Hlast Hi Hg.
  rewrite (serve_body_batch _ u s s1 batch l i H Hlast Hi).
  assert (Hs1 : tame (with_offset (JInt (i + 1)) s1)).
  { apply (tame_same_net s); [|exact Hs]. simpl.
    pose proof (keeps_client_bot_api (lit "getUpdates") (poll_params s) s) as K.
    rewrite <- getUpdates_eq, H in K. apply K. }
  assert (D : forall s0, tame s0 ->
             fst (dispatch [(lit "message", message_handler')] batch s0) = inr tt /\
             tame (snd (dispatch [(lit "message", message_handler')] batch s0))).
  { clear H Hlast Hs1. induction Hg as [|x batch (d & -> & Hd) _ IH];
      intros s0 Hs0; [now split|].
    cbn [dispatch items]. unfold bind, lift.
    destruct (dispatch_items_message_tame d s0 H1 H2 H3 Hl Hd Hs0) as [F T].
    destruct (dispatch_items _ d s0) as [[e|[]] s2]; simpl in F, T;
      [discriminate F|].
    exact (IH s2 T). }
  destruct (D _ Hs1) as [F _].
  destruct (dispatch _ batch _) as [[e|[]] s2]; simpl in F;
    [discriminate F | reflexivity].
Qed.

End MessageHandlerSafety.

(* ================================================================== *)
(** ** Sample runs of the message callback *)
(* ================================================================== *)

Lemma h_version_ok : handler_ok h_version.
Proof. intros msg e s. split; [discriminate|auto]. Qed.

Lemma h_broken_ok : handler_ok h_broken.
Proof.
  intros msg e s. split; [|auto]. simpl. intros ex [= <-]. reflexivity.
Qed.

Lemma quiet_ok : logger_ok quiet.
Proof. intros m s. split; [reflexivity|auto]. Qed.

Lemma start_tame (me : client) : tame (start me []).
Proof.
  intros n e. unfold start, script. simpl.
  destruct n; intros [= <-]; reflexivity.
Qed.

Lemma message_handler_ignores_witness :
  let s := start bot [] in
  message_handler h_version h_broken h_version quiet
                  (chat_message 42 (lit "good morning")) s
  = (inr tt, s).
Proof.
  intros s.
  refine (message_handler_ignores h_version h_broken h_version quiet
            (chat_fields 42 (lit "good morning")) (lit "good morning") s
            eq_refl (or_introl _)).
  intros r H. vm_compute in H. discriminate H.
Defined.

Lemma message_handler_handler_failure_witness :
  let s := start bot [Decoded (ok_body JNull)] in
  let msg := chat_message 42 (lit "/search vim") in
  fst (message_handler h_version h_broken h_version quiet msg s) = inr tt /\
  log (snd (message_handler h_version h_broken h_version quiet msg s))
  = [ELogException (lit "Failed command: /search vim")
                   (OtherException (lit "HTTPError"));
     EPost (lit "123:abc") (lit "sendMessage")
           (reply_params (JInt 42) fallback_text) 45].
Proof.
  intros s msg. subst msg. unfold chat_message.
  assert (Hc : lit "search" <> []) by discriminate.
  rewrite (message_handler_handler_failure h_version h_broken h_version quiet
             (chat_fields 42 (lit "/search vim")) (lit "/search vim") s
             (lit "search") (Some (lit "vim"))
             h_broken (OtherException (lit "HTTPError")) s
             eq_refl eq_refl Hc eq_refl eq_refl eq_refl).
  split; reflexivity.
Defined.

Lemma message_handler_silent_witness :
  let s := start bot [] in
  message_handler h_version h_broken h_version quiet
                  (chat_message 42 (lit "/start")) s
  = (inr tt, s).
Proof.
  intros s.
  assert (Hc : lit "start" <> []) by discriminate.
  exact (proj1 (message_handler_silent h_version h_broken h_version quiet
                  (chat_fields 42 (lit "/start")) (lit "/start") s
                  (lit "start") (Some []) cmd_start None s s
                  eq_refl eq_refl Hc eq_refl eq_refl (or_introl eq_refl)
                  eq_refl)).
Defined.

Lemma message_handler_reply_witness :
  let s := start bot [Decoded (ok_body JNull)] in
  exists rest,
    log (snd (message_handler h_version h_broken h_version quiet
                (chat_message 42 (lit "/pkgver gcc")) s))
    = [] ++ EPost (lit "123:abc") (lit "sendMessage")
                  (reply_params (JInt 42) (lit "*source*: gcc")) 45 :: rest.
Proof.
  intros s.
  assert (Hc : lit "pkgver" <> []) by discriminate.
  assert (Hx : lit "*source*: gcc" <> []) by discriminate.
  exact (message_handler_reply h_version h_broken h_version quiet
           (chat_fields 42 (lit "/pkgver gcc")) (lit "/pkgver gcc") s
           (lit "pkgver") (Some (lit "gcc")) h_version
           (lit "*source*: gcc") s s (JDict [(lit "id", JInt 42)]) (JInt 42)
           eq_refl eq_refl Hc eq_refl eq_refl Hx eq_refl eq_refl eq_refl).
Defined.

Lemma message_handler_no_chat_witness :
  let s := start bot [Decoded (ok_body JNull)] in
  message_handler h_version h_broken h_version quiet
                  (JDict [(lit "text", JStr (lit "/pkgver gcc"))]) s
  = (inr tt,
     logged (ELogException (lit "Failed to send: *source*: gcc") KeyError) s).
Proof.
  intros s.
  assert (Hc : lit "pkgver" <> []) by discriminate.
  assert (Hx : lit "*source*: gcc" <> []) by discriminate.
  exact (proj1 (message_handler_no_chat h_version h_broken h_version quiet
                  [(lit "text", JStr (lit "/pkgver gcc"))] (lit "/pkgver gcc")
                  s (lit "pkgver") (Some (lit "gcc"))
                  h_version (lit "*source*: gcc") s s
                  eq_refl eq_refl Hc eq_refl eq_refl Hx eq_refl) eq_refl).
Defined.

Lemma message_handler_catches_witness :
  fst (message_handler h_version h_broken h_version quiet
         (chat_message 42 (lit "/search vim")) (start bot []))
  = inr tt.
Proof.
  exact (message_handler_catches h_version h_broken h_version quiet
           (chat_fields 42 (lit "/search vim")) (lit "/search vim")
           (start bot [])
           h_version_ok h_broken_ok h_version_ok quiet_ok eq_refl
           (start_tame bot)).
Defined.

Lemma message_handler_keeps_client_witness :
  callbacks_keep_offset
    [(lit "message", message_handler h_version h_broken h_version quiet)].
Proof.
  apply (message_handler_keeps_client h_version h_broken h_version quiet);
    intros; intros s; reflexivity.
Defined.

Lemma serve_pass_with_message_handler_witness :
  let batch := [update 5 (lit "message") (chat_message 42 (lit "/search vim"));
                update 6 (lit "message") (chat_message 42 (lit "hello"))] in
  let s := start bot [Decoded (ok_body (JList batch))] in
  fst (serve_body
         [(lit "message", message_handler h_version h_broken h_version quiet)]
         None s)
  = inr (Some (JList batch)).
Proof.
  intros batch s.
  refine (serve_pass_with_message_handler h_version h_broken h_version quiet
            None s (polled s) batch _ 6
            h_version_ok h_broken_ok h_version_ok quiet_ok _
            eq_refl eq_refl eq_refl _).
  - intros n e. unfold s, start, script. simpl.
    destruct n as [|n]; [discriminate|].
    destruct n; intros [= <-]; reflexivity.
  - repeat constructor; eexists; (split; [reflexivity|]);
      intros v [Hv|[Hv|[]]]; try discriminate Hv;
      injection Hv as <-; do 2 eexists; split; reflexivity.
Defined.
